(** * Eulerian circuit and path criteria of [konigsberg_bridge_example.py]

    A shallow embedding of [is_eulerian] and [has_eulerian_path] together
    with the part of networkx they call: the degree views and the three
    connectivity predicates [nx.is_connected], [nx.is_strongly_connected]
    and [nx.is_weakly_connected]. *)

From Stdlib Require Import ZArith Lia.
From stdpp Require Import base decidable relations list numbers strings.

(** ** Outcomes of a call

    The networkx predicates either return a value or raise.  Two exceptions
    can occur on the paths modelled here. *)

Inductive NetworkXException :=
  | NetworkXPointlessConcept   (* connectivity asked of the null graph *)
  | NetworkXNotImplemented.    (* predicate applied to the wrong graph kind *)

Inductive result (A : Type) :=
  | Returns (a : A)
  | Raises (e : NetworkXException).
Arguments Returns {A} a.
Arguments Raises {A} e.

(** Python's [a and b] with [a] a boolean: [b] is evaluated only when [a]
    is [True]; otherwise the value is [False]. *)
Definition py_and (a : bool) (b : result bool) : result bool :=
  if a then b else Returns false.
Notation "a 'AND' b" := (py_and a b) (at level 41, right associativity).

(** Python's [sum] over a generator of booleans ([True] counts 1). *)
Definition py_sum (bs : list bool) : nat := sum_list (Nat.b2n <$> bs).

Section graph.
Context {V : Type} `{EqDecision V}.

(** ** Graphs

    A networkx graph: its kind, its nodes in iteration order, and its edges.
    Parallel edges are repeated entries of [edges]; a self-loop is an entry
    [(v, v)].  For an undirected graph an entry [(u, v)] stands for the
    unordered pair. *)
Record Graph := mkGraph {
  is_directed : bool;
  nodes : list V;
  edges : list (V * V)
}.

(** What networkx maintains by construction: a node is stored once, and
    adding an edge adds its end points. *)
Definition wf (G : Graph) : Prop :=
  NoDup (nodes G) ∧ ∀ e, e ∈ edges G → e.1 ∈ nodes G ∧ e.2 ∈ nodes G.

#[global] Instance wf_dec (G : Graph) : Decision (wf G).
Proof.
  refine (cast_if (decide (NoDup (nodes G) ∧
    Forall (λ e, e.1 ∈ nodes G ∧ e.2 ∈ nodes G) (edges G))));
    unfold wf; rewrite Forall_forall in *; tauto.
Defined.

Definition len (G : Graph) : nat := length (nodes G).

(** ** Degree views *)

Definition out_degree (G : Graph) (v : V) : nat :=
  length (filter (λ e, e.1 = v) (edges G)).
Definition in_degree (G : Graph) (v : V) : nat :=
  length (filter (λ e, e.2 = v) (edges G)).
(** Undirected degree: the number of edge ends at [v]; a self-loop has
    two. *)
Definition degree (G : Graph) (v : V) : nat := out_degree G v + in_degree G v.

(** [G.degree()] iterates over pairs (node, degree). *)
Definition degree_view (G : Graph) : list (V * nat) :=
  (λ v, (v, degree G v)) <$> nodes G.

(** ** Adjacency *)

Definition successors (G : Graph) (v : V) : list V :=
  (filter (λ e, e.1 = v) (edges G)).*2.
Definition predecessors (G : Graph) (v : V) : list V :=
  (filter (λ e, e.2 = v) (edges G)).*1.
Definition neighbors (G : Graph) (v : V) : list V :=
  successors G v ++ predecessors G v.
(** [G.adj[v]]: successors in a directed graph, all neighbours otherwise. *)
Definition adj (G : Graph) (v : V) : list V :=
  if is_directed G then successors G v else neighbors G v.

(** ** Breadth-first search ([_plain_bfs])

    [[
    seen = set(); nextlevel = {source}
    while nextlevel:
        thislevel = nextlevel; nextlevel = set()
        for v in thislevel:
            if v not in seen:
                yield v; seen.add(v); nextlevel.update(nbrs[v])
    ]]
    [seen] is kept in the order of the yields.  The outer loop is given
    fuel; [plain_bfs] passes one more than the number of nodes, which
    [bfs_loop_closed] below shows is never exhausted on a well-formed
    graph. *)
Fixpoint bfs_level (nbrs : V → list V) (thislevel seen nextlevel : list V)
    : list V * list V :=
  match thislevel with
  | [] => (seen, nextlevel)
  | v :: l =>
      if decide (v ∈ seen) then bfs_level nbrs l seen nextlevel
      else bfs_level nbrs l (seen ++ [v]) (nextlevel ++ nbrs v)
  end.

Fixpoint bfs_loop (nbrs : V → list V) (fuel : nat) (seen nextlevel : list V)
    : list V :=
  match nextlevel with
  | [] => seen
  | _ :: _ =>
      match fuel with
      | 0 => seen
      | S fuel' =>
          let '(seen', nextlevel') := bfs_level nbrs nextlevel seen [] in
          bfs_loop nbrs fuel' seen' nextlevel'
      end
  end.

Definition plain_bfs (G : Graph) (nbrs : V → list V) (source : V) : list V :=
  bfs_loop nbrs (S (len G)) [] [source].

(** The step relation a neighbour function induces. *)
Definition nbr_step (nbrs : V → list V) (u v : V) : Prop := v ∈ nbrs u.

(** The loop invariant, for a search from [source] inside the node list
    [dom]. *)
Record bfs_inv (nbrs : V → list V) (dom : list V) (source : V) (fuel : nat)
    (seen nextlevel : list V) : Prop := {
  inv_nodup : NoDup seen;
  inv_seen_dom : ∀ v, v ∈ seen → v ∈ dom;
  inv_next_dom : ∀ v, v ∈ nextlevel → v ∈ dom;
  inv_reach : ∀ v, v ∈ seen ++ nextlevel → rtc (nbr_step nbrs) source v;
  inv_source : source ∈ seen ++ nextlevel;
  inv_closed : ∀ v w, v ∈ seen → w ∈ nbrs v → w ∈ seen ++ nextlevel;
  inv_fuel : nextlevel = [] ∨ length dom < fuel + length seen
}.

(** ** Connectivity predicates of networkx

    Each raises [NetworkXPointlessConcept] on the null graph and is guarded
    by [not_implemented_for] against the other graph kind.  The source node
    is [arbitrary_element(G)], the first node in iteration order. *)

(** [nx.is_connected]: the breadth-first search from the first node yields
    as many nodes as the graph has. *)
Definition is_connected (G : Graph) : result bool :=
  if is_directed G then Raises NetworkXNotImplemented
  else match nodes G with
       | [] => Raises NetworkXPointlessConcept
       | source :: _ =>
           Returns (length (plain_bfs G (adj G) source) =? len G)
       end.

(** [nx.is_weakly_connected]: the same search, following edges in both
    directions. *)
Definition is_weakly_connected (G : Graph) : result bool :=
  if is_directed G then
    match nodes G with
    | [] => Raises NetworkXPointlessConcept
    | source :: _ =>
        Returns (length (plain_bfs G (neighbors G) source) =? len G)
    end
  else Raises NetworkXNotImplemented.

(** [nx.is_strongly_connected] compares the size of one strongly connected
    component with the number of nodes.  networkx enumerates components
    with Tarjan's algorithm; here the component taken is that of the first
    node, computed as the nodes reached forwards that are also reached
    backwards.  The comparison does not depend on which component is
    taken: some component has all nodes exactly when every component
    does. *)
Definition strong_component (G : Graph) (source : V) : list V :=
  filter (λ v, v ∈ plain_bfs G (predecessors G) source)
         (plain_bfs G (successors G) source).

Definition is_strongly_connected (G : Graph) : result bool :=
  if is_directed G then
    match nodes G with
    | [] => Raises NetworkXPointlessConcept
    | source :: _ =>
        Returns (length (strong_component G source) =? len G)
    end
  else Raises NetworkXNotImplemented.

(** ** The two functions of the program *)

Definition is_eulerian (G : Graph) : result bool :=
  if is_directed G then
    forallb (λ n, in_degree G n =? out_degree G n) (nodes G)
      AND is_strongly_connected G
  else
    forallb (λ '(v, d), d mod 2 =? 0) (degree_view G) AND is_connected G.

Definition has_eulerian_path (G : Graph) : result bool :=
  if is_directed G then
    let ins := λ v, Z.of_nat (in_degree G v) in
    let outs := λ v, Z.of_nat (out_degree G v) in
    let semibalanced_ins :=
      py_sum ((λ v, bool_decide (ins v - outs v = 1)%Z) <$> nodes G) in
    let semibalanced_outs :=
      py_sum ((λ v, bool_decide (outs v - ins v = 1)%Z) <$> nodes G) in
    (semibalanced_ins <=? 1) AND
    (semibalanced_outs <=? 1) AND
    (py_sum ((λ v, negb (in_degree G v =? out_degree G v)) <$> nodes G) <=? 2)
      AND is_weakly_connected G
  else
    (let s := py_sum ((λ '(v, d), d mod 2 =? 1) <$> degree_view G) in
     (s =? 0) || (s =? 2))
      AND is_connected G.

(** Edge reversal of a graph. *)
Definition reverse (G : Graph) : Graph :=
  mkGraph (is_directed G) (nodes G) (prod_swap <$> edges G).

(** ** The notions the criteria are stated with *)

(** One step along an edge, in its direction and in either direction. *)
Definition arc (G : Graph) (u v : V) : Prop := (u, v) ∈ edges G.
Definition link (G : Graph) (u v : V) : Prop :=
  (u, v) ∈ edges G ∨ (v, u) ∈ edges G.

(** Every vertex is reachable from every other vertex, ignoring edge
    direction ([connected], which for a directed graph is weak
    connectivity) or following it ([strongly_connected]). *)
Definition connected (G : Graph) : Prop :=
  ∀ u v, u ∈ nodes G → v ∈ nodes G → rtc (link G) u v.
Definition strongly_connected (G : Graph) : Prop :=
  ∀ u v, u ∈ nodes G → v ∈ nodes G → rtc (arc G) u v.

(** The number of vertices with a property. *)
Definition count (P : V → Prop) `{∀ v, Decision (P v)} (G : Graph) : nat :=
  length (filter P (nodes G)).

Definition imbalance (G : Graph) (v : V) : Z :=
  (Z.of_nat (in_degree G v) - Z.of_nat (out_degree G v))%Z.
Definition semibalanced_in (G : Graph) : nat :=
  count (λ v, imbalance G v = 1%Z) G.
Definition semibalanced_out (G : Graph) : nat :=
  count (λ v, (- imbalance G v)%Z = 1%Z) G.
Definition imbalanced (G : Graph) : nat :=
  count (λ v, in_degree G v ≠ out_degree G v) G.
Definition odd_count (G : Graph) : nat :=
  count (λ v, ¬ (2 | degree G v)) G.

(** The sum of the imbalances over all vertices. *)
Definition total_imbalance (G : Graph) : Z :=
  foldr Z.add 0%Z (imbalance G <$> nodes G).

(** A vertex no edge ends at. *)
Definition isolated (G : Graph) (v : V) : Prop :=
  ∀ e, e ∈ edges G → e.1 ≠ v ∧ e.2 ≠ v.

(** The closed-form conditions of the two entry points. *)
Definition circuit_criterion (G : Graph) : Prop :=
  if is_directed G then
    (∀ v, v ∈ nodes G → in_degree G v = out_degree G v) ∧
    strongly_connected G
  else
    (∀ v, v ∈ nodes G → (2 | degree G v)) ∧ connected G.

Definition path_criterion (G : Graph) : Prop :=
  if is_directed G then
    semibalanced_in G ≤ 1 ∧ semibalanced_out G ≤ 1 ∧ imbalanced G ≤ 2 ∧
    connected G
  else
    (odd_count G = 0 ∨ odd_count G = 2) ∧ connected G.

(** ** Eulerian walks

    A walk is a list of darts, each the pair (tail, head) of one
    traversal, consecutive darts sharing a vertex.  A dart traverses an
    edge in the edge's direction, or against it when the graph is
    undirected.  A walk is Eulerian when its darts traverse the edges of
    the graph in some order, each entry of [edges] once. *)
Inductive walk : V → list (V * V) → V → Prop :=
  | walk_nil v : walk v [] v
  | walk_cons u v w t : walk v w t → walk u ((u, v) :: w) t.

Definition traverses (G : Graph) (e d : V * V) : Prop :=
  d = e ∨ (is_directed G = false ∧ d = prod_swap e).

Definition eulerian_walk (G : Graph) (s : V) (w : list (V * V)) (t : V)
    : Prop :=
  s ∈ nodes G ∧ walk s w t ∧
  ∃ es, es ≡ₚ edges G ∧ Forall2 (traverses G) es w.

(** A circuit is a closed Eulerian walk.  An Eulerian path is any
    Eulerian walk: its ends may coincide, so a circuit is also a path. *)
Definition has_eulerian_circuit (G : Graph) : Prop :=
  ∃ s w, eulerian_walk G s w s.
Definition has_eulerian_walk (G : Graph) : Prop :=
  ∃ s w t, eulerian_walk G s w t.

(** *** Trails

    The walks built in the proof of Euler's theorem.  A step is an edge
    with a flag telling whether it is traversed against its direction,
    which only an undirected graph allows.  A trail is a walk over some of
    the edges; [rest] holds the edges not yet used. *)
Definition out_deg (es : list (V * V)) (v : V) : nat :=
  length (filter (λ e, e.1 = v) es).
Definition in_deg (es : list (V * V)) (v : V) : nat :=
  length (filter (λ e, e.2 = v) es).

Definition dart (st : (V * V) * bool) : V * V :=
  if st.2 then prod_swap st.1 else st.1.
Definition legal (G : Graph) (st : (V * V) * bool) : Prop :=
  st.2 = true → is_directed G = false.

Definition trail (G : Graph) (s : V) (steps : list ((V * V) * bool)) (t : V)
    (rest : list (V * V)) : Prop :=
  s ∈ nodes G ∧ walk s (dart <$> steps) t ∧ Forall (legal G) steps ∧
  (steps.*1) ++ rest ≡ₚ edges G.

(** The vertices a trail from [s] passes through. *)
Definition on_trail (s : V) (steps : list ((V * V) * bool)) (x : V) : Prop :=
  x = s ∨ ∃ st, st ∈ steps ∧ (st.1.1 = x ∨ st.1.2 = x).

(** The degree condition of a circuit, at every vertex. *)
Definition balanced (G : Graph) : Prop :=
  if is_directed G then ∀ v, in_degree G v = out_degree G v
  else ∀ v, (2 | degree G v).

(** The graph with one more edge. *)
Definition add_edge (G : Graph) (e : V * V) : Graph :=
  mkGraph (is_directed G) (nodes G) (e :: edges G).

End graph.

Arguments Graph V : clear implicits.

(** ** Building a multigraph

    [nx.MultiGraph()] and [add_edges_from] over triples (u, v, key), as the
    tests build their graphs.  Nodes are stored in the order in which they
    are first mentioned.  Between two given vertices a key names one edge:
    adding an edge whose key is already in use between them adds
    nothing. *)
Section construction.
Context {V K : Type} `{EqDecision V, EqDecision K}.

Record MultiGraph := mkMultiGraph {
  mg_nodes : list V;
  mg_edges : list (V * V * K)
}.

Definition MultiGraph_new : MultiGraph := mkMultiGraph [] [].

Definition add_node (ns : list V) (n : V) : list V :=
  if decide (n ∈ ns) then ns else ns ++ [n].

Definition has_key (M : MultiGraph) (u v : V) (key : K) : Prop :=
  Exists (λ e, e.2 = key ∧ (e.1 = (u, v) ∨ e.1 = (v, u))) (mg_edges M).

Definition mg_add_edge (M : MultiGraph) (u v : V) (key : K) : MultiGraph :=
  let ns := add_node (add_node (mg_nodes M) u) v in
  if decide (has_key M u v key) then mkMultiGraph ns (mg_edges M)
  else mkMultiGraph ns (mg_edges M ++ [(u, v, key)]).

Definition add_edges_from (M : MultiGraph) (ebunch : list (V * V * K))
    : MultiGraph :=
  foldl (λ M '(u, v, key), mg_add_edge M u v key) M ebunch.

(** The graph the entry points see. *)
Definition graph_of (M : MultiGraph) : Graph V :=
  mkGraph false (mg_nodes M) ((mg_edges M).*1).

(** The same undirected edge, stored in either orientation. *)
Definition same_ends (e e' : V * V) : Prop := e' = e ∨ e' = prod_swap e.

(** Every vertex is an end of some edge. *)
Definition no_isolated (G : Graph V) : Prop :=
  ∀ v, v ∈ nodes G → ∃ e, e ∈ edges G ∧ (e.1 = v ∨ e.2 = v).

End construction.

Arguments MultiGraph V K : clear implicits.

(** ** The scenarios of the test suite and of the specification *)

Definition konigsberg : Graph string :=
  mkGraph false ["A"; "B"; "C"; "D"]
    [("A","B"); ("A","B"); ("A","C"); ("A","C"); ("A","D"); ("C","D"); ("B","D")].

Definition kaliningrad : Graph string :=
  mkGraph false ["A"; "B"; "C"; "D"]
    [("A","B"); ("A","C"); ("A","D"); ("C","D"); ("B","D")].

Definition directed_cycle : Graph nat :=
  mkGraph true [0; 1; 2; 3] [(0,1); (1,2); (2,3); (3,0)].

Definition isolated_vertex : Graph string :=
  mkGraph false ["A"; "B"; "C"] [("A","B")].

Definition null_graph (d : bool) : Graph nat := mkGraph d [] [].

Definition single_vertex (d : bool) : Graph nat := mkGraph d [0] [].

(** The graphs as the two tests build them. *)
Definition konigsberg_bridges : list (string * string * string) :=
  [("A","B","Honey Bridge"); ("A","B","Blacksmith's Bridge");
   ("A","C","Green Bridge"); ("A","C","Connecting Bridge");
   ("A","D","Merchant's Bridge"); ("C","D","High Bridge");
   ("B","D","Wooden Bridge")].

Definition kaliningrad_bridges : list (string * string * string) :=
  [("A","B","Honey Bridge"); ("A","C","Green Bridge");
   ("A","D","Merchant's Bridge"); ("C","D","High Bridge");
   ("B","D","Wooden Bridge")].

(** Kaliningrad with nodes and edges listed in another order, and with
    some edges stored the other way round. *)
Definition kaliningrad_shuffled : Graph string :=
  mkGraph false ["D"; "B"; "A"; "C"]
    [("B","D"); ("A","C"); ("C","D"); ("A","B"); ("A","D")].

Definition kaliningrad_flipped : Graph string :=
  mkGraph false ["A"; "B"; "C"; "D"]
    [("B","A"); ("A","C"); ("D","A"); ("C","D"); ("D","B")].

(** Two parallel edges A–B and a third vertex apart. *)
Definition two_bridges : Graph string :=
  mkGraph false ["A"; "B"; "C"] [("A","B"); ("A","B")].

(** Two parallel directed edges. *)
Definition double_arc : Graph nat := mkGraph true [0; 1] [(0,1); (0,1)].

(** A directed path over three vertices. *)
Definition directed_path : Graph nat := mkGraph true [0; 1; 2] [(0,1); (1,2)].

(** One vertex with two outgoing edges. *)
Definition fork : Graph nat := mkGraph true [0; 1; 2] [(0,1); (0,2)].

(** * Properties *)

Lemma py_and_true a r : a AND r = Returns true ↔ a = true ∧ r = Returns true.
Proof. destruct a; simpl; naive_solver. Qed.

Lemma py_and_false a r :
  a AND r = Returns false ↔ a = false ∨ r = Returns false.
Proof. destruct a; simpl; naive_solver. Qed.

Lemma py_sum_count {A} (P : A → Prop) `{∀ x, Decision (P x)} (l : list A) :
  py_sum ((λ x, bool_decide (P x)) <$> l) = length (filter P l).
Proof.
  unfold py_sum. induction l as [|x l IH]; [done|].
  rewrite filter_cons. cbn [fmap list_fmap sum_list sum_list_with].
  fold (fmap (M:=list) (λ x, bool_decide (P x)) l).
  fold (fmap (M:=list) Nat.b2n ((λ x, bool_decide (P x)) <$> l)).
  fold (sum_list (Nat.b2n <$> ((λ x, bool_decide (P x)) <$> l))).
  rewrite IH. case_bool_decide; destruct (decide (P x)); simpl; done.
Qed.

Lemma py_sum_ext {A} (f g : A → bool) (l : list A) :
  (∀ x, x ∈ l → f x = g x) → py_sum (f <$> l) = py_sum (g <$> l).
Proof.
  intros Hfg. f_equal. apply list_fmap_ext. intros i x Hx.
  apply Hfg. by eapply list_elem_of_lookup_2.
Qed.

(** ** Breadth-first search reaches exactly what is reachable *)

Section bfs.
Context {V : Type} `{EqDecision V} (nbrs : V → list V).

Lemma bfs_level_spec thislevel : ∀ seen nextlevel seen' nextlevel',
  bfs_level nbrs thislevel seen nextlevel = (seen', nextlevel') →
  (∀ v, v ∈ seen' ↔ v ∈ seen ∨ v ∈ thislevel) ∧
  (NoDup seen → NoDup seen') ∧
  (∀ w, w ∈ nextlevel' ↔
        (w ∈ nextlevel ∨ ∃ v, v ∈ seen' ∧ (v ∉ seen) ∧ w ∈ nbrs v)) ∧
  length seen ≤ length seen' ∧
  (length seen' = length seen → nextlevel' = nextlevel).
Proof.
  induction thislevel as [|x l IH]; intros seen next seen' next' Hrun;
    simpl in Hrun.
  - injection Hrun as <- <-. split_and!; try done.
    + intros v. rewrite elem_of_nil. tauto.
    + intros w. split; [tauto|]. intros [?|(v & ? & ? & _)]; done.
  - destruct (decide (x ∈ seen)) as [Hx|Hx].
    + apply IH in Hrun as (Hs & Hnd & Hn & Hlen & Hsame).
      split_and!; try done.
      intros v. rewrite Hs, elem_of_cons. naive_solver.
    + apply IH in Hrun as (Hs & Hnd & Hn & Hlen & Hsame).
      rewrite length_app in Hlen, Hsame. simpl in Hlen, Hsame.
      split_and!.
      * intros v. rewrite Hs, elem_of_app, list_elem_of_singleton, elem_of_cons.
        tauto.
      * intros Hseen. apply Hnd. apply NoDup_app. split_and!; [done| |].
        -- intros y Hy ->%list_elem_of_singleton. done.
        -- apply NoDup_singleton.
      * intros w. rewrite Hn, elem_of_app. split.
        -- intros [[?|Hw]|(v & Hv & Hnv & Hw)]; [by left| |].
           ++ right. exists x. split_and!; [|done..].
              apply Hs. left. apply elem_of_app. right. by left.
           ++ right. exists v. split_and!; [done| |done].
              intros ?. apply Hnv, elem_of_app. by left.
        -- intros [?|(v & Hv & Hnv & Hw)]; [by left; left|].
           destruct (decide (v = x)) as [->|Hne]; [by left; right|].
           right. exists v. split_and!; [done| |done].
           rewrite elem_of_app, list_elem_of_singleton. tauto.
      * lia.
      * lia.
Qed.

Lemma closed_reach (seen : list V) source :
  source ∈ seen → (∀ v w, v ∈ seen → w ∈ nbrs v → w ∈ seen) →
  ∀ v, rtc (nbr_step nbrs) source v → v ∈ seen.
Proof.
  intros Hs Hcl. apply rtc_ind_r; [done|].
  intros y z _ Hyz Hy. by apply (Hcl y z).
Qed.

Lemma bfs_inv_done dom source fuel seen :
  bfs_inv nbrs dom source fuel seen [] →
  NoDup seen ∧ ∀ v, v ∈ seen ↔ rtc (nbr_step nbrs) source v.
Proof.
  intros [Hnd _ _ Hreach Hs Hcl _].
  setoid_rewrite app_nil_r in Hreach. setoid_rewrite app_nil_r in Hcl.
  rewrite app_nil_r in Hs.
  split; [done|]. intros v. split; [auto|]. by apply closed_reach.
Qed.

Lemma bfs_loop_closed dom source :
  NoDup dom → (∀ v w, w ∈ nbrs v → w ∈ dom) →
  ∀ fuel seen nextlevel,
  bfs_inv nbrs dom source fuel seen nextlevel →
  NoDup (bfs_loop nbrs fuel seen nextlevel) ∧
  ∀ v, v ∈ bfs_loop nbrs fuel seen nextlevel ↔ rtc (nbr_step nbrs) source v.
Proof.
  intros Hdom Hnb fuel.
  induction fuel as [|fuel IH]; intros seen next Hinv.
  - destruct next as [|x next]; [by eapply bfs_inv_done|].
    exfalso. destruct Hinv as [Hnd Hsd _ _ _ _ [?|Hf]]; [done|].
    pose proof (submseteq_length _ _ (NoDup_submseteq _ _ Hnd Hsd)).
    simpl in Hf. lia.
  - destruct next as [|x next]; [by eapply bfs_inv_done|].
    cbn [bfs_loop].
    destruct (bfs_level nbrs (x :: next) seen []) as [seen' next'] eqn:Hrun.
    apply bfs_level_spec in Hrun as (Hs & Hnd & Hn & Hlen & Hsame).
    destruct Hinv as [Hnds Hsd Hnd' Hreach Hsrc' Hcl Hf].
    assert (Hreach' : ∀ v, v ∈ seen' → rtc (nbr_step nbrs) source v).
    { intros v Hv. apply Hreach, elem_of_app. by apply Hs. }
    assert (Hnext' : ∀ w, w ∈ next' → ∃ v, v ∈ seen' ∧ w ∈ nbrs v).
    { intros w Hw. apply Hn in Hw as [Hw|(v & ? & _ & ?)]; [|by exists v].
      by apply elem_of_nil in Hw. }
    apply IH. split.
    + auto.
    + intros v Hv. apply Hs in Hv as [Hv|Hv]; auto.
    + intros w Hw. apply Hnext' in Hw as (v & _ & Hw). by eapply Hnb.
    + intros v Hv. apply elem_of_app in Hv as [Hv|Hv]; [auto|].
      apply Hnext' in Hv as (u & Hu & Hv).
      eapply rtc_r; [by apply Hreach'|done].
    + apply elem_of_app. left. apply Hs. by apply elem_of_app.
    + intros v w Hv Hw. apply elem_of_app.
      destruct (decide (v ∈ seen)) as [Hvs|Hvs].
      * left. apply Hs. apply elem_of_app. eauto.
      * right. apply Hn. right. eauto.
    + destruct (decide (length seen' = length seen)) as [Heq|Hne].
      * left. auto.
      * right. destruct Hf as [?|Hf]; [done|]. lia.
Qed.

End bfs.

(** ** The connectivity predicates decide connectivity *)

Section connectivity.
Context {V : Type} `{EqDecision V}.
Implicit Types (G : Graph V) (u v w : V).

Lemma successors_spec G v w : w ∈ successors G v ↔ arc G v w.
Proof.
  unfold successors, arc. rewrite list_elem_of_fmap. split.
  - intros ([a b] & -> & [Ha Hin]%list_elem_of_filter). simpl in *. by subst.
  - intros Hin. exists (v, w). split; [done|]. by apply list_elem_of_filter.
Qed.

Lemma predecessors_spec G v w : w ∈ predecessors G v ↔ arc G w v.
Proof.
  unfold predecessors, arc. rewrite list_elem_of_fmap. split.
  - intros ([a b] & -> & [Ha Hin]%list_elem_of_filter). simpl in *. by subst.
  - intros Hin. exists (w, v). split; [done|]. by apply list_elem_of_filter.
Qed.

Lemma neighbors_spec G v w : w ∈ neighbors G v ↔ link G v w.
Proof.
  unfold neighbors, link.
  by rewrite elem_of_app, successors_spec, predecessors_spec.
Qed.

Lemma adj_undirected G : is_directed G = false → adj G = neighbors G.
Proof. unfold adj. by intros ->. Qed.

Lemma link_sym G u v : link G u v → link G v u.
Proof. unfold link. tauto. Qed.

Lemma arc_link G u v : arc G u v → link G u v.
Proof. by left. Qed.

Lemma arc_nodes G u v : wf G → arc G u v → u ∈ nodes G ∧ v ∈ nodes G.
Proof. intros [_ Hwf] Harc. apply (Hwf _ Harc). Qed.

Lemma link_nodes G u v : wf G → link G u v → u ∈ nodes G ∧ v ∈ nodes G.
Proof. intros Hwf [H1|H1]; apply (arc_nodes _ _ _ Hwf) in H1; tauto. Qed.

Lemma rtc_link_sym G u v : rtc (link G) u v → rtc (link G) v u.
Proof.
  induction 1 as [|x y z Hxy _ IH]; [done|].
  eapply rtc_r; [done|]. by apply link_sym.
Qed.

Lemma rtc_flip_arc G u v :
  rtc (nbr_step (predecessors G)) u v ↔ rtc (arc G) v u.
Proof.
  split.
  - induction 1 as [|x y z Hxy _ IH]; [done|].
    eapply rtc_r; [done|]. by apply predecessors_spec.
  - induction 1 as [|x y z Hxy _ IH]; [done|].
    eapply rtc_r; [done|]. by apply predecessors_spec.
Qed.

Lemma rtc_successors G u v :
  rtc (nbr_step (successors G)) u v ↔ rtc (arc G) u v.
Proof.
  split; apply rtc_subrel; intros x y; apply successors_spec.
Qed.

Lemma rtc_neighbors G u v :
  rtc (nbr_step (neighbors G)) u v ↔ rtc (link G) u v.
Proof.
  split; apply rtc_subrel; intros x y; apply neighbors_spec.
Qed.

Lemma plain_bfs_spec G nbrs source :
  wf G → (∀ v w, w ∈ nbrs v → w ∈ nodes G) → source ∈ nodes G →
  NoDup (plain_bfs G nbrs source) ∧
  ∀ v, v ∈ plain_bfs G nbrs source ↔ rtc (nbr_step nbrs) source v.
Proof.
  intros [Hnd Hwf] Hnb Hsrc. unfold plain_bfs.
  apply (bfs_loop_closed nbrs (nodes G)); [done..|]. split.
  - apply NoDup_nil_2.
  - by intros v ?%elem_of_nil.
  - by intros v ->%list_elem_of_singleton.
  - by intros v ->%list_elem_of_singleton.
  - by left.
  - by intros v w ?%elem_of_nil.
  - right. unfold len. simpl. lia.
Qed.

(** A duplicate-free list inside the node list has as many entries as
    there are nodes exactly when it holds every node. *)
Lemma length_full (l dom : list V) :
  NoDup l → NoDup dom → (∀ v, v ∈ l → v ∈ dom) →
  length l = length dom ↔ ∀ v, v ∈ dom → v ∈ l.
Proof.
  intros Hl Hdom Hsub. split.
  - intros Hlen v Hv.
    assert (l ≡ₚ dom) as Hp.
    { apply submseteq_length_Permutation; [by apply NoDup_submseteq|lia]. }
    by rewrite Hp.
  - intros Hall. apply Permutation_length, NoDup_Permutation; naive_solver.
Qed.

Lemma plain_bfs_all G nbrs source :
  wf G → (∀ v w, w ∈ nbrs v → w ∈ nodes G) → source ∈ nodes G →
  (length (plain_bfs G nbrs source) =? len G) = true ↔
  ∀ v, v ∈ nodes G → rtc (nbr_step nbrs) source v.
Proof.
  intros Hwf Hnb Hsrc.
  destruct (plain_bfs_spec G nbrs source Hwf Hnb Hsrc) as [Hnd Hin].
  rewrite Nat.eqb_eq. unfold len. rewrite length_full; [|done|apply Hwf|].
  - by setoid_rewrite Hin.
  - intros v [->|(y & _ & Hy)]%Hin%rtc_inv_r; [done|]. by eapply Hnb.
Qed.

Lemma connected_from G source :
  source ∈ nodes G →
  connected G ↔ ∀ v, v ∈ nodes G → rtc (link G) source v.
Proof.
  intros Hsrc. split; [by auto|].
  intros Hall u v Hu Hv. etrans; [|by apply Hall].
  by apply rtc_link_sym, Hall.
Qed.

Lemma strongly_connected_from G source :
  source ∈ nodes G →
  strongly_connected G ↔
  ∀ v, v ∈ nodes G → rtc (arc G) source v ∧ rtc (arc G) v source.
Proof.
  intros Hsrc. split; [by auto|].
  intros Hall u v Hu Hv. etrans; [apply (Hall u Hu)|apply (Hall v Hv)].
Qed.

Lemma is_connected_spec G :
  wf G → is_directed G = false → nodes G ≠ [] →
  ∃ b, is_connected G = Returns b ∧ (b = true ↔ connected G).
Proof.
  intros Hwf Hdir Hne. unfold is_connected. rewrite Hdir.
  destruct (nodes G) as [|source rest] eqn:Hnodes; [done|].
  assert (Hsrc : source ∈ nodes G) by (rewrite Hnodes; by left).
  eexists. split; [done|].
  rewrite plain_bfs_all, (connected_from _ source), adj_undirected by
    (try done; rewrite ?adj_undirected by done;
     intros v w Hw%neighbors_spec; by apply (link_nodes G v w)).
  by setoid_rewrite rtc_neighbors.
Qed.

Lemma is_weakly_connected_spec G :
  wf G → is_directed G = true → nodes G ≠ [] →
  ∃ b, is_weakly_connected G = Returns b ∧ (b = true ↔ connected G).
Proof.
  intros Hwf Hdir Hne. unfold is_weakly_connected. rewrite Hdir.
  destruct (nodes G) as [|source rest] eqn:Hnodes; [done|].
  assert (Hsrc : source ∈ nodes G) by (rewrite Hnodes; by left).
  eexists. split; [done|].
  rewrite plain_bfs_all, (connected_from _ source) by
    (try done; intros v w Hw%neighbors_spec; by apply (link_nodes G v w)).
  by setoid_rewrite rtc_neighbors.
Qed.

Lemma strong_component_all G source :
  wf G → source ∈ nodes G →
  (length (strong_component G source) =? len G) = true ↔
  strongly_connected G.
Proof.
  intros Hwf Hsrc. unfold strong_component.
  assert (Hs : ∀ v w, w ∈ successors G v → w ∈ nodes G).
  { intros v w Hw%successors_spec. by apply (arc_nodes G v w). }
  assert (Hp : ∀ v w, w ∈ predecessors G v → w ∈ nodes G).
  { intros v w Hw%predecessors_spec. by apply (arc_nodes G w v). }
  destruct (plain_bfs_spec G _ source Hwf Hs Hsrc) as [Hnd Hin].
  destruct (plain_bfs_spec G _ source Hwf Hp Hsrc) as [_ Hin'].
  rewrite Nat.eqb_eq. unfold len.
  rewrite length_full; [|by apply NoDup_filter|apply Hwf|].
  - rewrite (strongly_connected_from _ source) by done.
    setoid_rewrite list_elem_of_filter.
    setoid_rewrite Hin. setoid_rewrite Hin'.
    setoid_rewrite rtc_flip_arc. setoid_rewrite rtc_successors.
    naive_solver.
  - intros v [_ [->|(y & _ & Hy)]%Hin%rtc_inv_r]%list_elem_of_filter;
      [done|]. by eapply Hs.
Qed.

Lemma is_strongly_connected_spec G :
  wf G → is_directed G = true → nodes G ≠ [] →
  ∃ b, is_strongly_connected G = Returns b ∧
       (b = true ↔ strongly_connected G).
Proof.
  intros Hwf Hdir Hne. unfold is_strongly_connected. rewrite Hdir.
  destruct (nodes G) as [|source rest] eqn:Hnodes; [done|].
  assert (Hsrc : source ∈ nodes G) by (rewrite Hnodes; by left).
  eexists. split; [done|]. by apply strong_component_all.
Qed.

End connectivity.

(** ** The entry points evaluate the closed-form criteria *)

Section criteria.
Context {V : Type} `{EqDecision V}.
Implicit Types (G : Graph V) (u v w : V).

Lemma mod2_divide (n : nat) : n mod 2 = 0 ↔ (2 | n).
Proof.
  split.
  - intros Hn. exists (n / 2). pose proof (Nat.div_mod_eq n 2). lia.
  - intros [k ->]. apply Nat.Div0.mod_mul.
Qed.

Lemma mod2_not_divide (n : nat) : n mod 2 = 1 ↔ ¬ (2 | n).
Proof.
  rewrite <- mod2_divide. pose proof (Nat.mod_upper_bound n 2). lia.
Qed.

Lemma forallb_nodes (f : V → bool) (l : list V) :
  forallb f l = true ↔ ∀ v, v ∈ l → f v = true.
Proof. rewrite forallb_forall. by setoid_rewrite list_elem_of_In. Qed.

Lemma all_balanced_spec G :
  forallb (λ n, in_degree G n =? out_degree G n) (nodes G) = true ↔
  ∀ v, v ∈ nodes G → in_degree G v = out_degree G v.
Proof. rewrite forallb_nodes. by setoid_rewrite Nat.eqb_eq. Qed.

Lemma all_even_spec G :
  forallb (λ '(v, d), d mod 2 =? 0) (degree_view G) = true ↔
  ∀ v, v ∈ nodes G → (2 | degree G v).
Proof.
  unfold degree_view. rewrite forallb_forall. split.
  - intros Hall v Hv. apply mod2_divide, Nat.eqb_eq.
    apply (Hall (v, degree G v)), list_elem_of_In.
    by apply (list_elem_of_fmap_2 (λ v, (v, degree G v))).
  - intros Hall [v d] (u & [= -> ->] & Hu)%list_elem_of_In%list_elem_of_fmap.
    by apply Nat.eqb_eq, mod2_divide, Hall.
Qed.

Lemma semibalanced_ins_spec G :
  py_sum ((λ v, bool_decide
    (Z.of_nat (in_degree G v) - Z.of_nat (out_degree G v) = 1)%Z) <$> nodes G)
  = semibalanced_in G.
Proof. apply (py_sum_count (λ v, imbalance G v = 1%Z)). Qed.

Lemma semibalanced_outs_spec G :
  py_sum ((λ v, bool_decide
    (Z.of_nat (out_degree G v) - Z.of_nat (in_degree G v) = 1)%Z) <$> nodes G)
  = semibalanced_out G.
Proof.
  unfold semibalanced_out, count.
  rewrite <- (py_sum_count (λ v, (- imbalance G v)%Z = 1%Z)).
  apply py_sum_ext. intros v _. apply bool_decide_ext.
  unfold imbalance. lia.
Qed.

Lemma imbalanced_spec G :
  py_sum ((λ v, negb (in_degree G v =? out_degree G v)) <$> nodes G)
  = imbalanced G.
Proof.
  unfold imbalanced, count.
  rewrite <- (py_sum_count (λ v, in_degree G v ≠ out_degree G v)).
  apply py_sum_ext. intros v _.
  destruct (Nat.eqb_spec (in_degree G v) (out_degree G v)); simpl; symmetry;
    [apply bool_decide_eq_false_2; tauto|by apply bool_decide_eq_true_2].
Qed.

Lemma odd_count_spec G :
  py_sum ((λ '(v, d), d mod 2 =? 1) <$> degree_view G) = odd_count G.
Proof.
  unfold odd_count, count, degree_view.
  rewrite <- (py_sum_count (λ v, ¬ (2 | degree G v))).
  rewrite <- list_fmap_compose. apply py_sum_ext. intros v _. unfold compose.
  destruct (Nat.eqb_spec (degree G v mod 2) 1) as [Hm|Hm];
    rewrite mod2_not_divide in Hm; symmetry;
    [by apply bool_decide_eq_true_2|by apply bool_decide_eq_false_2].
Qed.

Lemma is_eulerian_criterion G :
  wf G → nodes G ≠ [] →
  is_eulerian G = Returns true ↔ circuit_criterion G.
Proof.
  intros Hwf Hne. unfold is_eulerian, circuit_criterion.
  destruct (is_directed G) eqn:Hdir; rewrite py_and_true.
  - destruct (is_strongly_connected_spec G Hwf Hdir Hne) as (b & -> & Hb).
    rewrite all_balanced_spec, <- Hb. naive_solver.
  - destruct (is_connected_spec G Hwf Hdir Hne) as (b & -> & Hb).
    rewrite all_even_spec, <- Hb. naive_solver.
Qed.

Lemma has_eulerian_path_criterion G :
  wf G → nodes G ≠ [] →
  has_eulerian_path G = Returns true ↔ path_criterion G.
Proof.
  intros Hwf Hne. unfold has_eulerian_path, path_criterion.
  destruct (is_directed G) eqn:Hdir; cbv zeta.
  - rewrite semibalanced_ins_spec, semibalanced_outs_spec, imbalanced_spec.
    destruct (is_weakly_connected_spec G Hwf Hdir Hne) as (b & -> & Hb).
    rewrite !py_and_true, !Nat.leb_le, <- Hb. naive_solver.
  - rewrite odd_count_spec.
    destruct (is_connected_spec G Hwf Hdir Hne) as (b & -> & Hb).
    rewrite py_and_true, orb_true_iff, !Nat.eqb_eq, <- Hb. naive_solver.
Qed.

(** Away from the null graph both entry points return. *)
Lemma is_eulerian_returns G :
  nodes G ≠ [] → ∃ b, is_eulerian G = Returns b.
Proof.
  intros Hne. unfold is_eulerian, is_strongly_connected, is_connected.
  destruct (is_directed G), (nodes G) as [|source rest]; [done| |done|];
    match goal with |- ∃ _, ?a AND _ = _ => destruct a end; simpl; eauto.
Qed.

Lemma has_eulerian_path_returns G :
  nodes G ≠ [] → ∃ b, has_eulerian_path G = Returns b.
Proof.
  intros Hne. unfold has_eulerian_path, is_weakly_connected, is_connected.
  destruct (is_directed G) eqn:Hdir; cbv zeta; rewrite ?Hdir;
    destruct (nodes G) as [|source rest] eqn:Hn; try done;
    repeat match goal with |- ∃ _, ?a AND _ = _ => destruct a; simpl end;
    eauto.
Qed.

End criteria.

(** ** Degree bookkeeping *)

Section degrees.
Context {V : Type} `{EqDecision V}.
Implicit Types (G : Graph V) (u v w : V).

Lemma sum_list_fmap_add {A} (f g : A → nat) (l : list A) :
  sum_list ((λ x, f x + g x) <$> l) = sum_list (f <$> l) + sum_list (g <$> l).
Proof. induction l as [|x l IH]; csimpl; lia. Qed.

Lemma sum_list_indicator (x : V) (l : list V) :
  NoDup l → x ∈ l →
  sum_list ((λ v, if decide (x = v) then 1 else 0) <$> l) = 1.
Proof.
  induction 1 as [|y l Hy Hnd IH]; [by intros ?%elem_of_nil|].
  intros Hx. csimpl. destruct (decide (x = y)) as [->|Hne].
  - rewrite (sum_list_fmap_same 0); [lia|].
    apply Forall_forall. intros v Hv. rewrite decide_False; [done|].
    by intros ->.
  - apply elem_of_cons in Hx as [?|Hx]; [done|]. by rewrite IH.
Qed.

(** Every edge end lies at exactly one node, so end counts add up to the
    number of edges. *)
Lemma sum_ends {E} (f : E → V) (es : list E) (l : list V) :
  NoDup l → (∀ e, e ∈ es → f e ∈ l) →
  sum_list ((λ v, length (filter (λ e, f e = v) es)) <$> l) = length es.
Proof.
  intros Hnd. induction es as [|e es IH]; intros Hin.
  - simpl. rewrite (sum_list_fmap_same 0); [lia|]. by apply Forall_forall.
  - trans (sum_list ((λ v, if decide (f e = v) then 1 else 0) <$> l) +
           sum_list ((λ v, length (filter (λ e, f e = v) es)) <$> l)).
    + rewrite <- sum_list_fmap_add. f_equal. apply list_fmap_ext.
      intros _ v _. rewrite filter_cons.
      destruct (decide (f e = v)); simpl; lia.
    + rewrite sum_list_indicator, IH; [done|..].
      * intros; apply Hin; by right.
      * done.
      * apply Hin; by left.
Qed.

Lemma sum_in_degree G :
  wf G → sum_list (in_degree G <$> nodes G) = length (edges G).
Proof. intros [Hnd Hwf]. apply (sum_ends snd); [done|]. apply Hwf. Qed.

Lemma sum_out_degree G :
  wf G → sum_list (out_degree G <$> nodes G) = length (edges G).
Proof. intros [Hnd Hwf]. apply (sum_ends fst); [done|]. apply Hwf. Qed.

Lemma foldr_Zadd_sub (f g : V → nat) (l : list V) :
  foldr Z.add 0%Z ((λ v, Z.of_nat (f v) - Z.of_nat (g v))%Z <$> l) =
  (Z.of_nat (sum_list (f <$> l)) - Z.of_nat (sum_list (g <$> l)))%Z.
Proof. induction l as [|x l IH]; csimpl in *; lia. Qed.

Lemma total_imbalance_zero G : wf G → total_imbalance G = 0%Z.
Proof.
  intros Hwf. unfold total_imbalance, imbalance.
  rewrite foldr_Zadd_sub, sum_in_degree, sum_out_degree by done. lia.
Qed.

Lemma total_imbalance_semibalanced G :
  (∀ v, v ∈ nodes G → (-1 ≤ imbalance G v ≤ 1)%Z) →
  total_imbalance G =
  (Z.of_nat (semibalanced_in G) - Z.of_nat (semibalanced_out G))%Z.
Proof.
  unfold total_imbalance, semibalanced_in, semibalanced_out, count.
  induction (nodes G) as [|x l IH]; intros Hb; [done|].
  rewrite !filter_cons. cbn [fmap list_fmap foldr].
  fold (fmap (M:=list) (imbalance G) l).
  rewrite IH by (intros; apply Hb; by right).
  assert (-1 ≤ imbalance G x ≤ 1)%Z by (apply Hb; by left).
  repeat case_decide; simpl length; lia.
Qed.

Lemma count_none (P : V → Prop) `{∀ v, Decision (P v)} G :
  (∀ v, v ∈ nodes G → ¬ P v) → count P G = 0.
Proof.
  unfold count. induction (nodes G) as [|x l IH]; intros Hn; [done|].
  rewrite filter_cons_False by (apply Hn; by left).
  apply IH. intros; apply Hn; by right.
Qed.

End degrees.

(** ** Relations between the criteria *)

Section relations.
Context {V : Type} `{EqDecision V}.
Implicit Types (G : Graph V) (u v w : V).

Lemma strongly_connected_connected G : strongly_connected G → connected G.
Proof.
  intros Hs u v Hu Hv. eapply rtc_subrel; [|by apply Hs]. apply arc_link.
Qed.

Lemma isolated_not_connected G u v :
  u ∈ nodes G → v ∈ nodes G → u ≠ v → isolated G v → ¬ connected G.
Proof.
  intros Hu Hv Hne Hiso Hc.
  destruct (rtc_inv_r _ _ (Hc u v Hu Hv)) as [?|(y & _ & [He|He])]; [done|..];
    apply Hiso in He; simpl in He; tauto.
Qed.

Lemma circuit_path_criterion G : circuit_criterion G → path_criterion G.
Proof.
  unfold circuit_criterion, path_criterion.
  destruct (is_directed G); intros [Hdeg Hconn].
  - unfold semibalanced_in, semibalanced_out, imbalanced.
    rewrite !count_none.
    + split_and!; [lia..|]. by apply strongly_connected_connected.
    + intros v Hv. specialize (Hdeg v Hv). tauto.
    + intros v Hv. unfold imbalance. specialize (Hdeg v Hv). lia.
    + intros v Hv. unfold imbalance. specialize (Hdeg v Hv). lia.
  - unfold odd_count. rewrite count_none; [tauto|].
    intros v Hv. specialize (Hdeg v Hv). tauto.
Qed.

(** Two calls that both return, and return [true] in the same cases, have
    the same outcome. *)
Lemma returns_eq (r r' : result bool) :
  (∃ b, r = Returns b) → (∃ b, r' = Returns b) →
  (r = Returns true ↔ r' = Returns true) → r = r'.
Proof.
  intros [[] ->] [[] ->] [H1 H2]; try done.
  - by rewrite H1.
  - by rewrite H2.
Qed.

(** *** Edge reversal *)

Lemma in_degree_reverse G v : in_degree (reverse G) v = out_degree G v.
Proof.
  unfold in_degree, out_degree. simpl.
  induction (edges G) as [|[a b] es IH]; [done|].
  rewrite fmap_cons, !filter_cons. simpl.
  destruct (decide (a = v)); simpl; by rewrite IH.
Qed.

Lemma out_degree_reverse G v : out_degree (reverse G) v = in_degree G v.
Proof.
  unfold in_degree, out_degree. simpl.
  induction (edges G) as [|[a b] es IH]; [done|].
  rewrite fmap_cons, !filter_cons. simpl.
  destruct (decide (b = v)); simpl; by rewrite IH.
Qed.

Lemma arc_reverse G u v : arc (reverse G) u v ↔ arc G v u.
Proof.
  unfold arc. simpl. rewrite list_elem_of_fmap. split.
  - by intros ([a b] & [= -> ->] & Hin).
  - intros Hin. by exists (v, u).
Qed.

Lemma link_reverse G u v : link (reverse G) u v ↔ link G u v.
Proof.
  unfold link. fold (arc (reverse G) u v) (arc (reverse G) v u).
  rewrite !arc_reverse. unfold arc. tauto.
Qed.

Lemma wf_reverse G : wf G → wf (reverse G).
Proof.
  intros [Hnd Hwf]. split; [done|]. simpl.
  intros e ([a b] & -> & Hin)%list_elem_of_fmap.
  destruct (Hwf _ Hin). simpl in *. tauto.
Qed.

Lemma connected_reverse G : connected (reverse G) ↔ connected G.
Proof.
  unfold connected. simpl.
  split; intros Hc u v Hu Hv; (eapply rtc_subrel; [|by apply Hc]);
    intros x y; apply link_reverse.
Qed.

Lemma rtc_arc_reverse G u v : rtc (arc (reverse G)) u v ↔ rtc (arc G) v u.
Proof.
  split.
  - induction 1 as [|x y z Hxy _ IH]; [done|].
    eapply rtc_r; [done|]. by apply arc_reverse.
  - induction 1 as [|x y z Hxy _ IH]; [done|].
    eapply rtc_r; [done|]. by apply arc_reverse.
Qed.

Lemma strongly_connected_reverse G :
  strongly_connected (reverse G) ↔ strongly_connected G.
Proof.
  unfold strongly_connected. simpl.
  split; intros Hc u v Hu Hv; apply rtc_arc_reverse; auto.
Qed.

Lemma imbalance_reverse G v : imbalance (reverse G) v = (- imbalance G v)%Z.
Proof.
  unfold imbalance. rewrite in_degree_reverse, out_degree_reverse. lia.
Qed.

Lemma count_iff (P Q : V → Prop) `{∀ v, Decision (P v), ∀ v, Decision (Q v)}
    G G' :
  nodes G = nodes G' → (∀ v, P v ↔ Q v) → count P G = count Q G'.
Proof.
  unfold count. intros -> HPQ. f_equal. by apply list_filter_iff.
Qed.

Lemma circuit_criterion_reverse G :
  is_directed G = true →
  circuit_criterion (reverse G) ↔ circuit_criterion G.
Proof.
  unfold circuit_criterion. simpl. intros ->.
  rewrite strongly_connected_reverse.
  setoid_rewrite in_degree_reverse. setoid_rewrite out_degree_reverse.
  naive_solver.
Qed.

Lemma path_criterion_reverse G :
  is_directed G = true →
  path_criterion (reverse G) ↔ path_criterion G.
Proof.
  unfold path_criterion. simpl. intros ->.
  rewrite connected_reverse.
  assert (semibalanced_in (reverse G) = semibalanced_out G) as ->.
  { apply count_iff; [done|]. intros v. by rewrite imbalance_reverse. }
  assert (semibalanced_out (reverse G) = semibalanced_in G) as ->.
  { apply count_iff; [done|]. intros v. rewrite imbalance_reverse. lia. }
  assert (imbalanced (reverse G) = imbalanced G) as ->.
  { apply count_iff; [done|]. intros v.
    rewrite in_degree_reverse, out_degree_reverse. naive_solver. }
  tauto.
Qed.

(** *** Graphs without edges *)

Lemma connected_no_edges G :
  edges G = [] →
  connected G ↔ ∀ u v, u ∈ nodes G → v ∈ nodes G → u = v.
Proof.
  intros He. split.
  - intros Hc u v Hu Hv.
    destruct (rtc_inv _ _ (Hc u v Hu Hv)) as [?|(y & [Hl|Hl] & _)]; [done|..];
      unfold arc in Hl; rewrite He in Hl; by apply elem_of_nil in Hl.
  - intros Heq u v Hu Hv. by rewrite (Heq u v).
Qed.

Lemma all_equal_length (l : list V) :
  NoDup l → l ≠ [] → (∀ u v, u ∈ l → v ∈ l → u = v) ↔ length l = 1.
Proof.
  intros Hnd Hne. destruct l as [|a [|b l]]; [done|..].
  - split; [done|]. by intros _ u v ->%list_elem_of_singleton
                                    ->%list_elem_of_singleton.
  - split; [|done]. intros Heq. exfalso.
    apply NoDup_cons in Hnd as [Ha _]. apply Ha.
    rewrite (Heq a b); [by left|by left|right; by left].
Qed.

Lemma circuit_criterion_no_edges G :
  wf G → edges G = [] → nodes G ≠ [] → circuit_criterion G ↔ len G = 1.
Proof.
  intros [Hnd _] He Hne. unfold len.
  rewrite <- all_equal_length, <- connected_no_edges by done.
  unfold circuit_criterion, degree, in_degree, out_degree. rewrite He. simpl.
  destruct (is_directed G).
  - split; [intros [_ ?]; by apply strongly_connected_connected|].
    intros Hc. split; [done|]. intros u v Hu Hv.
    rewrite (proj1 (connected_no_edges G He) Hc u v); done.
  - split; [tauto|]. intros Hc. split; [|done]. intros. by exists 0.
Qed.

End relations.

(** ** Euler's theorem *)

Section walks.
Context {V : Type} `{EqDecision V}.
Implicit Types (G : Graph V) (u v x y s t : V) (d e : V * V).
Implicit Types (w : list (V * V)).
Implicit Types (steps : list ((V * V) * bool)) (es rest : list (V * V)).

Lemma walk_app s w1 m w2 t : walk s w1 m → walk m w2 t → walk s (w1 ++ w2) t.
Proof. induction 1; simpl; [done|]. intros. constructor. auto. Qed.

Lemma walk_cons_inv s d w t : walk s (d :: w) t → d.1 = s ∧ walk d.2 w t.
Proof. by inversion 1; subst. Qed.

Lemma walk_nil_inv s t : walk s [] t → s = t.
Proof. by inversion 1. Qed.

Lemma walk_app_inv s w1 w2 t :
  walk s (w1 ++ w2) t → ∃ m, walk s w1 m ∧ walk m w2 t.
Proof.
  revert s. induction w1 as [|d w1 IH]; intros s; simpl.
  - intros Hw. exists s. split; [constructor|done].
  - intros [<- Hw]%walk_cons_inv. destruct (IH _ Hw) as (m & H1 & H2).
    exists m. split; [|done]. destruct d. by constructor.
Qed.

Lemma walk_single d : walk d.1 [d] d.2.
Proof. destruct d. repeat constructor. Qed.

(** Along a walk every vertex is left as often as it is entered, up to
    the two ends. *)
Lemma walk_count s w t v :
  walk s w t →
  out_deg w v + (if decide (t = v) then 1 else 0) =
  in_deg w v + (if decide (s = v) then 1 else 0).
Proof.
  unfold out_deg, in_deg. induction 1 as [x|x y w t _ IH]; [done|].
  rewrite !filter_cons. simpl.
  repeat case_decide; simpl in *; subst; try done; lia.
Qed.

(** The far end of a walk inside the graph is a node. *)
Lemma walk_end_in (P : V → Prop) s w t :
  walk s w t → P s → (∀ d, d ∈ w → P d.2) → P t.
Proof.
  induction 1 as [|x y w t _ IH]; [done|]. intros _ Hd.
  apply IH; [apply (Hd (x, y)); by left|]. intros d ?. apply Hd. by right.
Qed.

Lemma filter_perm_length {A} (P : A → Prop) `{∀ a, Decision (P a)}
    (l k : list A) :
  l ≡ₚ k → length (filter P l) = length (filter P k).
Proof. by intros ->. Qed.

Lemma out_deg_app es es' v : out_deg (es ++ es') v = out_deg es v + out_deg es' v.
Proof. unfold out_deg. by rewrite filter_app, length_app. Qed.

Lemma in_deg_app es es' v : in_deg (es ++ es') v = in_deg es v + in_deg es' v.
Proof. unfold in_deg. by rewrite filter_app, length_app. Qed.

Lemma out_deg_pos es v : 0 < out_deg es v → ∃ e, e ∈ es ∧ e.1 = v.
Proof.
  unfold out_deg. destruct (filter _ es) as [|e l] eqn:Hf; simpl; [lia|].
  intros _. exists e. assert (He : e ∈ filter (λ e, e.1 = v) es).
  { rewrite Hf. by left. }
  apply list_elem_of_filter in He. tauto.
Qed.

Lemma in_deg_pos es v : 0 < in_deg es v → ∃ e, e ∈ es ∧ e.2 = v.
Proof.
  unfold in_deg. destruct (filter _ es) as [|e l] eqn:Hf; simpl; [lia|].
  intros _. exists e. assert (He : e ∈ filter (λ e, e.2 = v) es).
  { rewrite Hf. by left. }
  apply list_elem_of_filter in He. tauto.
Qed.

(** Degrees of the darts of a list of steps against those of its edges. *)
Lemma dart_degree steps v :
  out_deg (dart <$> steps) v + in_deg (dart <$> steps) v =
  out_deg (steps.*1) v + in_deg (steps.*1) v.
Proof.
  unfold out_deg, in_deg, dart. induction steps as [|[[a b] []] steps IH];
    [done|..]; rewrite !fmap_cons, !filter_cons; simpl;
    repeat case_decide; simpl; try done; lia.
Qed.

Lemma dart_directed G steps :
  is_directed G = true → Forall (legal G) steps → dart <$> steps = steps.*1.
Proof.
  intros Hdir. induction 1 as [|[e b] steps Hl _ IH]; [done|].
  rewrite !fmap_cons, IH. f_equal. unfold dart. simpl.
  destruct b; [|done]. unfold legal in Hl. simpl in Hl.
  rewrite Hdir in Hl. by specialize (Hl eq_refl).
Qed.

End walks.

Section euler.
Context {V : Type} `{EqDecision V}.
Implicit Types (G : Graph V) (u v x y s t : V) (d e : V * V).
Implicit Types (w : list (V * V)) (st : (V * V) * bool).
Implicit Types (steps : list ((V * V) * bool)) (es rest : list (V * V)).

Lemma trail_degrees G s steps t rest v :
  trail G s steps t rest →
  out_degree G v = out_deg (steps.*1) v + out_deg rest v ∧
  in_degree G v = in_deg (steps.*1) v + in_deg rest v.
Proof.
  intros (_ & _ & _ & Hp). unfold out_degree, in_degree.
  rewrite <- !(filter_perm_length _ _ _ Hp).
  by rewrite <- out_deg_app, <- in_deg_app.
Qed.

Lemma trail_edge_nodes G s steps t rest e :
  wf G → trail G s steps t rest → e ∈ steps.*1 ++ rest →
  e.1 ∈ nodes G ∧ e.2 ∈ nodes G.
Proof. intros [_ Hwf] (_ & _ & _ & Hp) He. apply Hwf. by rewrite <- Hp. Qed.

Lemma dart_ends st x :
  st.1.1 = x ∨ st.1.2 = x ↔ (dart st).1 = x ∨ (dart st).2 = x.
Proof. destruct st as [[a b] []]; unfold dart; simpl; tauto. Qed.

Lemma perm_of_elem (e : V * V) rest : e ∈ rest → ∃ rest', rest ≡ₚ e :: rest'.
Proof.
  intros (l1 & l2 & ->)%list_elem_of_split. exists (l1 ++ l2).
  by rewrite Permutation_middle.
Qed.

(** An open trail in a balanced graph has an unused edge at its far
    end. *)
Lemma trail_extend_open G s steps t rest :
  balanced G → trail G s steps t rest → s ≠ t →
  ∃ st rest', rest ≡ₚ st.1 :: rest' ∧ legal G st ∧ (dart st).1 = t.
Proof.
  intros Hbal Htr Hst.
  destruct (trail_degrees G s steps t rest t Htr) as [Hout Hin].
  destruct Htr as (_ & Hw & Hlegal & Hp).
  pose proof (walk_count _ _ _ t Hw) as Hc.
  rewrite decide_True, decide_False in Hc by done.
  unfold balanced in Hbal. destruct (is_directed G) eqn:Hdir.
  - rewrite (dart_directed G) in Hc by done. specialize (Hbal t).
    destruct (out_deg_pos rest t) as (e & He & Het); [lia|].
    destruct (perm_of_elem e rest He) as [rest' Hr].
    exists (e, false), rest'. by split_and!.
  - destruct (Hbal t) as [k Hk]. unfold degree in Hk.
    pose proof (dart_degree steps t) as Hd.
    assert (0 < out_deg rest t ∨ 0 < in_deg rest t) as [Hpos|Hpos] by lia.
    + destruct (out_deg_pos rest t Hpos) as (e & He & Het).
      destruct (perm_of_elem e rest He) as [rest' Hr].
      exists (e, false), rest'. by split_and!.
    + destruct (in_deg_pos rest t Hpos) as (e & He & Het).
      destruct (perm_of_elem e rest He) as [rest' Hr].
      exists (e, true), rest'. split_and!; [done|by intros _|].
      by destruct e.
Qed.

Lemma trail_snoc G s steps t rest st rest' :
  trail G s steps t rest → rest ≡ₚ st.1 :: rest' → legal G st →
  (dart st).1 = t → trail G s (steps ++ [st]) (dart st).2 rest'.
Proof.
  intros (Hs & Hw & Hlegal & Hp) Hr Hl Ht. split_and!.
  - done.
  - rewrite fmap_app. eapply walk_app; [done|]. rewrite <- Ht.
    apply walk_single.
  - apply Forall_app. split; [done|]. by apply Forall_singleton.
  - rewrite fmap_app, <- app_assoc. simpl. by rewrite <- Hr.
Qed.

Lemma trail_cons G s steps t rest st rest' :
  wf G → trail G s steps t rest → rest ≡ₚ st.1 :: rest' → legal G st →
  (dart st).2 = s → trail G (dart st).1 (st :: steps) t rest'.
Proof.
  intros Hwf Htr Hr Hl Hs.
  assert (Hn : st.1.1 ∈ nodes G ∧ st.1.2 ∈ nodes G).
  { apply (trail_edge_nodes G s steps t rest); [done..|].
    apply elem_of_app. right. rewrite Hr. by left. }
  destruct Htr as (_ & Hw & Hlegal & Hp). split_and!.
  - destruct st as [[a b] []]; unfold dart; simpl in *; tauto.
  - rewrite fmap_cons. rewrite <- Hs in Hw.
    destruct (dart st) as [a b]. by constructor.
  - by constructor.
  - rewrite fmap_cons. simpl. rewrite <- Hp, Hr.
    by rewrite <- Permutation_middle.
Qed.

(** In a connected graph, some unused edge ends at a vertex of the
    trail. *)
Lemma touching_edge G s steps rest :
  wf G → connected G → trail G s steps s rest → rest ≠ [] →
  ∃ e x, e ∈ rest ∧ on_trail s steps x ∧ (e.1 = x ∨ e.2 = x).
Proof.
  intros Hwf Hc Htr Hne. destruct rest as [|e0 rest0]; [done|].
  assert (Ha : e0.1 ∈ nodes G).
  { apply (trail_edge_nodes G s steps s (e0 :: rest0)); [done..|].
    apply elem_of_app. right. by left. }
  assert (Hs : s ∈ nodes G) by apply Htr.
  assert (Hgo : ∀ x, rtc (link G) x e0.1 → on_trail s steps x →
    ∃ e x, e ∈ e0 :: rest0 ∧ on_trail s steps x ∧ (e.1 = x ∨ e.2 = x)).
  { intros x Hr. remember (e0.1) as a eqn:Hea.
    induction Hr as [x|x y z Hxy _ IH]; intros Hon.
    - exists e0, x. split_and!; [by left|done|by left].
    - assert (∃ e, e ∈ edges G ∧ ((e.1 = x ∧ e.2 = y) ∨ (e.1 = y ∧ e.2 = x)))
        as (e & He & Hends).
      { destruct Hxy as [?|?]; [exists (x, y)|exists (y, x)]; simpl; tauto. }
      destruct Htr as (_ & _ & _ & Hp). rewrite <- Hp in He.
      apply elem_of_app in He as [He|He].
      + apply IH; [done..|]. right.
        apply list_elem_of_fmap in He as (st & -> & Hst).
        exists st. split; [done|]. tauto.
      + exists e, x. split_and!; [done..|tauto]. }
  apply (Hgo s); [by apply Hc|by left].
Qed.

(** A closed trail can be restarted at any of its vertices. *)
Lemma trail_rotate G s steps rest x :
  wf G → trail G s steps s rest → on_trail s steps x →
  ∃ steps', trail G x steps' x rest.
Proof.
  intros Hwf Htr [->|(st & Hst & Hends)]; [by exists steps|].
  assert (Hx : x ∈ nodes G).
  { destruct (trail_edge_nodes G s steps s rest st.1 Hwf Htr) as [? ?].
    - apply elem_of_app. left. by apply list_elem_of_fmap_2.
    - destruct Hends as [<-|<-]; done. }
  destruct Htr as (_ & Hw & Hlegal & Hp).
  apply list_elem_of_split in Hst as (l1 & l2 & ->).
  rewrite fmap_app, fmap_cons in Hw.
  apply walk_app_inv in Hw as (m & Hw1 & [Hm Hw2]%walk_cons_inv).
  apply dart_ends in Hends as [Hx1|Hx2].
  - exists ((st :: l2) ++ l1). split_and!.
    + done.
    + rewrite fmap_app, fmap_cons. eapply walk_app; [|by rewrite <- Hx1, Hm].
      rewrite <- Hx1. destruct (dart st). by constructor.
    + revert Hlegal. rewrite !Forall_app, !Forall_cons. tauto.
    + rewrite <- Hp. apply Permutation_app_tail, fmap_Permutation.
      by rewrite Permutation_app_comm.
  - exists (l2 ++ l1 ++ [st]). split_and!.
    + done.
    + rewrite !fmap_app. rewrite <- Hx2.
      eapply walk_app; [done|]. eapply walk_app; [done|].
      rewrite <- Hm. apply walk_single.
    + revert Hlegal. rewrite !Forall_app, !Forall_cons, Forall_nil. tauto.
    + rewrite <- Hp. apply Permutation_app_tail, fmap_Permutation.
      rewrite (Permutation_app_comm l2). by rewrite <- app_assoc.
Qed.

Lemma trail_extend_closed G s steps rest :
  wf G → connected G → trail G s steps s rest → rest ≠ [] →
  ∃ s' steps' t' rest',
    trail G s' steps' t' rest' ∧ length rest = S (length rest').
Proof.
  intros Hwf Hc Htr Hne.
  destruct (touching_edge G s steps rest Hwf Hc Htr Hne)
    as (e & x & He & Hon & Hends).
  destruct (trail_rotate G s steps rest x Hwf Htr Hon) as [steps' Htr'].
  destruct (perm_of_elem e rest He) as [rest' Hr].
  assert (Hlen : length rest = S (length rest')) by by rewrite Hr.
  destruct Hends as [Hx|Hx].
  - exists x, (steps' ++ [(e, false)]), e.2, rest'. split; [|done].
    by apply (trail_snoc G x steps' x rest (e, false) rest').
  - exists e.1, ((e, false) :: steps'), x, rest'. split; [|done].
    by apply (trail_cons G x steps' x rest (e, false) rest').
Qed.

(** Extending a trail until no edge is left. *)
Lemma trail_complete G :
  wf G → balanced G → connected G →
  ∀ n s steps t rest, length rest = n → trail G s steps t rest →
  ∃ s' steps', trail G s' steps' s' [].
Proof.
  intros Hwf Hbal Hc. induction n as [|n IH]; intros s steps t rest Hlen Htr.
  - apply length_zero_iff_nil in Hlen as ->.
    destruct (decide (s = t)) as [->|Hst]; [by eauto|].
    destruct (trail_extend_open G s steps t [] Hbal Htr Hst)
      as (st & rest' & Hr & _). by apply Permutation_nil_cons in Hr.
  - destruct (decide (s = t)) as [->|Hst].
    + destruct (trail_extend_closed G t steps rest Hwf Hc Htr)
        as (s' & steps' & t' & rest' & Htr' & Hlen').
      { intros ->. done. }
      apply (IH s' steps' t' rest'); [lia|done].
    + destruct (trail_extend_open G s steps t rest Hbal Htr Hst)
        as (st & rest' & Hr & Hl & Hd).
      apply (IH s (steps ++ [st]) (dart st).2 rest').
      * rewrite Hr in Hlen. simpl in Hlen. lia.
      * by eapply trail_snoc.
Qed.

Lemma legal_traverses G steps :
  Forall (legal G) steps → Forall2 (traverses G) (steps.*1) (dart <$> steps).
Proof.
  induction 1 as [|[e []] steps Hl _ IH]; [constructor|..];
    rewrite !fmap_cons; constructor; try done.
  - right. split; [by apply Hl|done].
  - by left.
Qed.

Lemma traverses_legal G es w :
  Forall2 (traverses G) es w →
  ∃ steps, steps.*1 = es ∧ dart <$> steps = w ∧ Forall (legal G) steps.
Proof.
  induction 1 as [|e d es w Ht _ (steps & <- & <- & Hl)]; [by exists []|].
  destruct Ht as [->|[Hu ->]].
  - exists ((e, false) :: steps). split_and!; [done..|].
    constructor; [|done]. by intros ?.
  - exists ((e, true) :: steps). split_and!; [done..|].
    constructor; [|done]. by intros _.
Qed.

Lemma trail_eulerian_walk G s w t :
  eulerian_walk G s w t ↔ ∃ steps, w = dart <$> steps ∧ trail G s steps t [].
Proof.
  unfold eulerian_walk, trail. split.
  - intros (Hs & Hw & es & Hp & (steps & <- & <- & Hl)%traverses_legal).
    exists steps. rewrite app_nil_r. by split_and!.
  - intros (steps & -> & Hs & Hw & Hl & Hp). rewrite app_nil_r in Hp.
    split_and!; [done..|]. exists (steps.*1). split; [done|].
    by apply legal_traverses.
Qed.

(** Euler's theorem, sufficiency for circuits: a connected graph whose
    vertices are balanced has an Eulerian circuit. *)
Lemma eulerian_circuit_exists G :
  wf G → nodes G ≠ [] → balanced G → connected G → has_eulerian_circuit G.
Proof.
  intros Hwf Hne Hbal Hc. destruct (nodes G) as [|s0 l] eqn:Hn; [done|].
  destruct (trail_complete G Hwf Hbal Hc (length (edges G)) s0 [] s0 (edges G))
    as (s & steps & Htr); [done| |].
  - split_and!; [rewrite Hn; by left|constructor|constructor|done].
  - exists s, (dart <$> steps). apply trail_eulerian_walk. by exists steps.
Qed.

End euler.

Section euler_converse.
Context {V : Type} `{EqDecision V}.
Implicit Types (G : Graph V) (u v x y s t : V) (d e : V * V).
Implicit Types (w : list (V * V)) (st : (V * V) * bool).
Implicit Types (steps : list ((V * V) * bool)) (es rest : list (V * V)).

(** The degrees of a graph that has an Eulerian walk from [s] to [t]. *)
Lemma eulerian_walk_degrees G s w t v :
  eulerian_walk G s w t →
  if is_directed G then
    in_degree G v + (if decide (s = v) then 1 else 0) =
    out_degree G v + (if decide (t = v) then 1 else 0)
  else
    (2 | degree G v + (if decide (s = v) then 1 else 0)
                    + (if decide (t = v) then 1 else 0)).
Proof.
  intros (steps & -> & Htr)%trail_eulerian_walk.
  destruct (trail_degrees G s steps t [] v Htr) as [Hout Hin].
  destruct Htr as (_ & Hw & Hlegal & _).
  pose proof (walk_count _ _ _ v Hw) as Hc.
  unfold out_deg, in_deg in Hout, Hin. simpl in Hout, Hin.
  fold (out_deg (steps.*1) v) in Hout. fold (in_deg (steps.*1) v) in Hin.
  destruct (is_directed G) eqn:Hdir.
  - rewrite (dart_directed G) in Hc by done. lia.
  - pose proof (dart_degree steps v) as Hd. unfold degree.
    exists (in_deg (dart <$> steps) v + (if decide (s = v) then 1 else 0)).
    lia.
Qed.

Lemma eulerian_circuit_balanced G s w :
  eulerian_walk G s w s → balanced G.
Proof.
  intros Hw. unfold balanced.
  destruct (is_directed G) eqn:Hdir; intros v;
    pose proof (eulerian_walk_degrees G s w s v Hw) as Hd;
    rewrite Hdir in Hd.
  - lia.
  - destruct Hd as [k Hk]. case_decide.
    + exists (k - 1). lia.
    + exists k. lia.
Qed.

Lemma trail_dart_nodes G s steps t rest st :
  wf G → trail G s steps t rest → st ∈ steps →
  (dart st).1 ∈ nodes G ∧ (dart st).2 ∈ nodes G.
Proof.
  intros Hwf Htr Hst.
  destruct (trail_edge_nodes G s steps t rest st.1 Hwf Htr) as [H1 H2].
  { apply elem_of_app. left. by apply list_elem_of_fmap_2. }
  destruct st as [[a b] []]; unfold dart; simpl in *; tauto.
Qed.

Lemma eulerian_walk_end G s w t :
  wf G → eulerian_walk G s w t → t ∈ nodes G.
Proof.
  intros Hwf (steps & -> & Htr)%trail_eulerian_walk.
  pose proof Htr as (Hs & Hw & _).
  apply (walk_end_in (λ v, v ∈ nodes G) s (dart <$> steps) t); [done..|].
  intros d (st & -> & Hst)%list_elem_of_fmap.
  by apply (trail_dart_nodes G s steps t [] st).
Qed.

(** Along a walk over arcs, the far end is reachable from the near end. *)
Lemma walk_reach G s w t :
  (∀ d, d ∈ w → arc G d.1 d.2) → walk s w t → rtc (arc G) s t.
Proof.
  intros Harc Hw. induction Hw as [|x y w t _ IH]; [done|].
  eapply rtc_l.
  - apply (Harc (x, y)). by left.
  - apply IH. intros d ?. apply Harc. by right.
Qed.

(** In a directed graph with an Eulerian circuit every edge can be
    followed back to its tail. *)
Lemma circuit_arc_back G s w x y :
  is_directed G = true → eulerian_walk G s w s → arc G x y →
  rtc (arc G) y x.
Proof.
  intros Hdir (steps & -> & Htr)%trail_eulerian_walk Hxy.
  destruct Htr as (_ & Hw & Hlegal & Hp).
  rewrite (dart_directed G) in Hw by done. rewrite app_nil_r in Hp.
  assert (Harc : ∀ d, d ∈ steps.*1 → arc G d.1 d.2).
  { intros [a b] Hd. unfold arc. simpl. by rewrite <- Hp. }
  unfold arc in Hxy. rewrite <- Hp in Hxy.
  apply list_elem_of_split in Hxy as (w1 & w2 & Hsplit).
  rewrite Hsplit in Hw, Harc.
  apply walk_app_inv in Hw as (m & Hw1 & [Hm Hw2]%walk_cons_inv).
  simpl in Hm, Hw2. subst m. etrans.
  - eapply walk_reach; [|done]. intros d Hd. apply Harc.
    apply elem_of_app. right. by right.
  - eapply walk_reach; [|done]. intros d Hd. apply Harc.
    apply elem_of_app. by left.
Qed.

Lemma circuit_strongly_connected G s w :
  is_directed G = true → eulerian_walk G s w s → connected G →
  strongly_connected G.
Proof.
  intros Hdir Hw Hc u v Hu Hv. specialize (Hc u v Hu Hv). clear Hu Hv.
  induction Hc as [|x y z Hxy _ IH]; [done|].
  etrans; [|done]. destruct Hxy as [Hxy|Hyx]; [by apply rtc_once|].
  by eapply circuit_arc_back.
Qed.

(** A vertex outside a well-formed graph has no edge ends. *)
Lemma degree_outside G v :
  wf G → v ∉ nodes G → in_degree G v = 0 ∧ out_degree G v = 0.
Proof.
  intros [_ Hwf] Hv.
  change (in_deg (edges G) v = 0 ∧ out_deg (edges G) v = 0).
  split.
  - destruct (in_deg (edges G) v) eqn:Hd; [done|].
    destruct (in_deg_pos (edges G) v) as (e & He & <-); [lia|].
    destruct Hv. by apply Hwf.
  - destruct (out_deg (edges G) v) eqn:Hd; [done|].
    destruct (out_deg_pos (edges G) v) as (e & He & <-); [lia|].
    destruct Hv. by apply Hwf.
Qed.

Lemma balanced_nodes G :
  wf G →
  balanced G ↔
  if is_directed G then ∀ v, v ∈ nodes G → in_degree G v = out_degree G v
  else ∀ v, v ∈ nodes G → (2 | degree G v).
Proof.
  intros Hwf. unfold balanced. destruct (is_directed G).
  - split; [by auto|]. intros Hb v.
    destruct (decide (v ∈ nodes G)) as [Hv|Hv]; [by auto|].
    destruct (degree_outside G v Hwf Hv) as [-> ->]. done.
  - split; [by auto|]. intros Hb v.
    destruct (decide (v ∈ nodes G)) as [Hv|Hv]; [by auto|].
    unfold degree. destruct (degree_outside G v Hwf Hv) as [-> ->].
    by exists 0.
Qed.

(** Euler's theorem for circuits, on connected graphs. *)
Lemma circuit_criterion_iff G :
  wf G → nodes G ≠ [] → connected G →
  circuit_criterion G ↔ has_eulerian_circuit G.
Proof.
  intros Hwf Hne Hc. split.
  - intros Hcrit. apply eulerian_circuit_exists; [done..| |done].
    apply balanced_nodes; [done|]. unfold circuit_criterion in Hcrit.
    destruct (is_directed G); tauto.
  - intros (s & w & Hw).
    pose proof (eulerian_circuit_balanced G s w Hw) as Hbal.
    apply balanced_nodes in Hbal; [|done]. unfold circuit_criterion.
    destruct (is_directed G) eqn:Hdir; split; try done.
    by eapply circuit_strongly_connected.
Qed.

(** *** Walks that need not close *)

Lemma length_filter_none (P : V → Prop) `{∀ v, Decision (P v)} (l : list V) :
  (∀ v, v ∈ l → ¬ P v) → length (filter P l) = 0.
Proof.
  induction l as [|a l IH]; intros Hn; [done|].
  rewrite filter_cons_False by (apply Hn; by left).
  apply IH. intros; apply Hn; by right.
Qed.

Lemma length_filter_eq (l : list V) x :
  NoDup l → x ∈ l → length (filter (λ v, v = x) l) = 1.
Proof.
  induction 1 as [|a l Ha Hnd IH]; [by intros ?%elem_of_nil|].
  intros Hx. destruct (decide (a = x)) as [->|Hne].
  - rewrite filter_cons_True by done. simpl.
    rewrite length_filter_none; [done|]. by intros v Hv ->.
  - rewrite filter_cons_False by done. apply IH.
    apply elem_of_cons in Hx as [?|?]; [by subst|done].
Qed.

Lemma length_filter_or (P Q : V → Prop)
    `{∀ v, Decision (P v), ∀ v, Decision (Q v)} (l : list V) :
  (∀ v, P v → Q v → False) →
  length (filter (λ v, P v ∨ Q v) l) =
  length (filter P l) + length (filter Q l).
Proof.
  intros Hex. induction l as [|a l IH]; [done|].
  rewrite !filter_cons.
  destruct (decide (P a)), (decide (Q a)), (decide (P a ∨ Q a));
    simpl; try tauto; try lia. by destruct (Hex a).
Qed.

Lemma length_filter_pair (l : list V) s t :
  NoDup l → s ∈ l → t ∈ l → s ≠ t →
  length (filter (λ v, v = s ∨ v = t) l) = 2.
Proof.
  intros Hnd Hs Ht Hst.
  rewrite length_filter_or, !length_filter_eq; [done..|]. congruence.
Qed.

Lemma walk_odd_count G s w t :
  wf G → is_directed G = false → eulerian_walk G s w t →
  odd_count G = 0 ∨ odd_count G = 2.
Proof.
  intros Hwf Hdir Hw.
  assert (Hd : ∀ v, (2 | degree G v + (if decide (s = v) then 1 else 0)
                                    + (if decide (t = v) then 1 else 0))).
  { intros v. pose proof (eulerian_walk_degrees G s w t v Hw) as Hd.
    by rewrite Hdir in Hd. }
  destruct (decide (s = t)) as [->|Hst].
  - left. apply count_none. intros v _ Hodd. apply Hodd.
    destruct (Hd v) as [k Hk]. case_decide; [exists (k - 1)|exists k]; lia.
  - right. unfold odd_count.
    rewrite (count_iff _ (λ v, v = s ∨ v = t) G G); [|done|].
    + apply length_filter_pair; [apply Hwf|apply Hw| |done].
      by eapply eulerian_walk_end.
    + intros v. destruct (Hd v) as [k Hk]. split.
      * intros Hodd. destruct (decide (v = s)) as [|Hvs]; [tauto|].
        destruct (decide (v = t)) as [|Hvt]; [tauto|].
        destruct Hodd. rewrite !decide_False in Hk by congruence.
        exists k. lia.
      * intros [-> | ->] [k' Hk'].
        -- rewrite decide_True, decide_False in Hk by done. lia.
        -- rewrite decide_False, decide_True in Hk by done. lia.
Qed.

Lemma walk_directed_counts G s w t :
  wf G → is_directed G = true → eulerian_walk G s w t →
  semibalanced_in G ≤ 1 ∧ semibalanced_out G ≤ 1 ∧ imbalanced G ≤ 2.
Proof.
  intros Hwf Hdir Hw.
  assert (Hd : ∀ v, in_degree G v + (if decide (s = v) then 1 else 0) =
                    out_degree G v + (if decide (t = v) then 1 else 0)).
  { intros v. pose proof (eulerian_walk_degrees G s w t v Hw) as Hd.
    by rewrite Hdir in Hd. }
  assert (Ht : t ∈ nodes G) by by eapply eulerian_walk_end.
  assert (Hs : s ∈ nodes G) by apply Hw.
  unfold semibalanced_in, semibalanced_out, imbalanced.
  destruct (decide (s = t)) as [->|Hst].
  - rewrite !count_none; [lia|..]; intros v _; specialize (Hd v);
      unfold imbalance; lia.
  - rewrite (count_iff (λ v, imbalance G v = 1%Z) (λ v, v = t) G G),
      (count_iff (λ v, (- imbalance G v)%Z = 1%Z) (λ v, v = s) G G),
      (count_iff (λ v, in_degree G v ≠ _) (λ v, v = s ∨ v = t) G G); try done.
    + unfold count.
      rewrite length_filter_pair, !length_filter_eq
        by (try done; apply Hwf). lia.
    + intros v. specialize (Hd v). repeat case_decide; subst; try done;
        split; try tauto; try lia. intros [?|?]; by subst.
    + intros v. specialize (Hd v). unfold imbalance.
      repeat case_decide; subst; try done; split; try lia; try congruence.
    + intros v. specialize (Hd v). unfold imbalance.
      repeat case_decide; subst; try done; split; try lia; try congruence.
Qed.

(** *** Joining the two odd vertices *)

Lemma wf_add_edge G e :
  wf G → e.1 ∈ nodes G → e.2 ∈ nodes G → wf (add_edge G e).
Proof.
  intros [Hnd Hwf] H1 H2. split; [done|]. simpl.
  intros e' [->|He']%elem_of_cons; [done|]. by apply Hwf.
Qed.

Lemma connected_add_edge G e : connected G → connected (add_edge G e).
Proof.
  intros Hc u v Hu Hv. eapply rtc_subrel; [|by apply Hc].
  intros x y [?|?]; [left|right]; by right.
Qed.

Lemma degree_add_edge G e v :
  degree (add_edge G e) v =
  degree G v + (if decide (e.1 = v) then 1 else 0)
             + (if decide (e.2 = v) then 1 else 0).
Proof.
  unfold degree, out_degree, in_degree. simpl. rewrite !filter_cons.
  repeat case_decide; simpl; lia.
Qed.

Lemma odd_succ_even (n : nat) : ¬ (2 | n) → (2 | n + 1).
Proof.
  intros Hn%mod2_not_divide. exists (n / 2 + 1).
  pose proof (Nat.div_mod_eq n 2). lia.
Qed.

(** An Eulerian circuit of the graph with one more edge is, with that
    edge taken out, an Eulerian walk of the graph. *)
Lemma trail_remove_edge G e s steps :
  wf G → e.1 ∈ nodes G → e.2 ∈ nodes G →
  trail (add_edge G e) s steps s [] →
  ∃ s' steps' t', trail G s' steps' t' [].
Proof.
  intros Hwf H1 H2 (_ & Hw & Hlegal & Hp). simpl in Hp.
  assert (He : e ∈ steps.*1).
  { rewrite app_nil_r in Hp. rewrite Hp. by left. }
  apply list_elem_of_fmap in He as (st & -> & Hst).
  apply list_elem_of_split in Hst as (l1 & l2 & ->).
  rewrite fmap_app, fmap_cons in Hw.
  apply walk_app_inv in Hw as (m & Hw1 & [Hm Hw2]%walk_cons_inv).
  exists (dart st).2, (l2 ++ l1), (dart st).1. split_and!.
  - destruct st as [[a b] []]; unfold dart; simpl in *; done.
  - rewrite fmap_app. eapply walk_app; [done|]. by rewrite Hm.
  - revert Hlegal. rewrite !Forall_app, Forall_cons. unfold legal. simpl.
    tauto.
  - rewrite app_nil_r in *. apply (inj (cons st.1)). rewrite <- Hp.
    rewrite !fmap_app, fmap_cons.
    by rewrite (Permutation_app_comm (l2.*1)), Permutation_middle.
Qed.

Lemma exactly_two (P : V → Prop) `{∀ v, Decision (P v)} (l : list V) :
  NoDup l → length (filter P l) = 2 →
  ∃ p q, p ≠ q ∧ p ∈ l ∧ q ∈ l ∧ ∀ v, v ∈ l → (P v ↔ v = p ∨ v = q).
Proof.
  intros Hnd Hlen.
  pose proof (NoDup_filter P l Hnd) as Hndf.
  assert (Hin : ∀ v, v ∈ filter P l ↔ P v ∧ v ∈ l)
    by (intros; apply list_elem_of_filter).
  destruct (filter P l) as [|p [|q [|? ?]]]; try done.
  exists p, q. split_and!.
  - intros ->. apply NoDup_cons in Hndf as [Hp _]. apply Hp. by left.
  - apply Hin. by left.
  - apply Hin. right. by left.
  - intros v Hv. split.
    + intros HP. assert (Hv' : v ∈ [p; q]) by by apply Hin.
      apply elem_of_cons in Hv' as [?|Hv']; [by left|].
      apply list_elem_of_singleton in Hv'. by right.
    + intros [-> | ->]; apply Hin; [by left|right; by left].
Qed.

(** Euler's theorem for walks in undirected graphs, sufficiency. *)
Lemma eulerian_walk_exists G :
  wf G → nodes G ≠ [] → is_directed G = false → connected G →
  odd_count G = 0 ∨ odd_count G = 2 → has_eulerian_walk G.
Proof.
  intros Hwf Hne Hdir Hc [H0|H2].
  - destruct (eulerian_circuit_exists G) as (s & w & Hw); try done.
    + apply balanced_nodes; [done|]. rewrite Hdir. intros v Hv.
      destruct (decide (2 | degree G v)) as [|Hodd]; [done|].
      apply length_zero_iff_nil in H0.
      by destruct (filter_nil_not_elem_of _ _ v H0 Hodd).
    + by exists s, w, s.
  - destruct (exactly_two _ _ (proj1 Hwf) H2) as (p & q & Hpq & Hp & Hq & Hodd).
    pose proof (wf_add_edge G (p, q) Hwf Hp Hq) as Hwf'.
    destruct (eulerian_circuit_exists (add_edge G (p, q)))
      as (s & w & (steps & -> & Htr)%trail_eulerian_walk); try done.
    + apply balanced_nodes; [done|]. simpl. rewrite Hdir. intros v Hv.
      rewrite degree_add_edge. simpl. specialize (Hodd v Hv).
      repeat case_decide; subst; try done.
      * rewrite Nat.add_0_r. apply odd_succ_even, Hodd. by left.
      * rewrite Nat.add_0_r. apply odd_succ_even, Hodd. by right.
      * rewrite !Nat.add_0_r.
        destruct (decide (2 | degree G v)) as [|Hv']; [done|].
        apply Hodd in Hv'. naive_solver.
    + by apply connected_add_edge.
    + destruct (trail_remove_edge G (p, q) s steps Hwf Hp Hq Htr)
        as (s' & steps' & t' & Htr').
      exists s', (dart <$> steps'), t'. apply trail_eulerian_walk.
      by exists steps'.
Qed.

(** The entry points against the existence of walks, on connected
    graphs. *)
Lemma is_eulerian_iff_circuit G :
  wf G → nodes G ≠ [] → connected G →
  is_eulerian G = Returns true ↔ has_eulerian_circuit G.
Proof.
  intros Hwf Hne Hc. rewrite is_eulerian_criterion by done.
  by apply circuit_criterion_iff.
Qed.

Lemma has_eulerian_path_iff_walk G :
  wf G → nodes G ≠ [] → connected G → is_directed G = false →
  has_eulerian_path G = Returns true ↔ has_eulerian_walk G.
Proof.
  intros Hwf Hne Hc Hdir. rewrite has_eulerian_path_criterion by done.
  unfold path_criterion. rewrite Hdir. split.
  - intros [Hodd _]. by apply eulerian_walk_exists.
  - intros (s & w & t & Hw). split; [|done]. by eapply walk_odd_count.
Qed.

Lemma has_eulerian_path_of_walk G :
  wf G → nodes G ≠ [] → connected G → is_directed G = true →
  has_eulerian_walk G → has_eulerian_path G = Returns true.
Proof.
  intros Hwf Hne Hc Hdir (s & w & t & Hw).
  apply has_eulerian_path_criterion; [done..|].
  unfold path_criterion. rewrite Hdir.
  destruct (walk_directed_counts G s w t Hwf Hdir Hw) as (? & ? & ?).
  by split_and!.
Qed.

(** Connectivity of a concrete graph, from a run of the search. *)
Lemma connected_by_search G :
  wf G →
  (if is_directed G then is_weakly_connected G else is_connected G)
    = Returns true →
  connected G.
Proof.
  intros Hwf Hrun.
  assert (Hne : nodes G ≠ []).
  { intros Hn. revert Hrun. unfold is_weakly_connected, is_connected.
    rewrite Hn. by destruct (is_directed G). }
  destruct (is_directed G) eqn:Hdir.
  - destruct (is_weakly_connected_spec G Hwf Hdir Hne) as (b & Hb & Hiff).
    apply Hiff. congruence.
  - destruct (is_connected_spec G Hwf Hdir Hne) as (b & Hb & Hiff).
    apply Hiff. congruence.
Qed.

End euler_converse.

(** * The claims *)

(** ** The test suite and the scenarios *)

Example test_seven_bridges_of_konigsberg :
  is_directed konigsberg = false ∧ has_eulerian_path konigsberg = Returns false.
Proof. split; vm_compute; reflexivity. Qed.

Example test_five_bridges_of_kaliningrad :
  is_directed kaliningrad = false ∧ has_eulerian_path kaliningrad = Returns true.
Proof. split; vm_compute; reflexivity. Qed.

Example scenario_A : is_eulerian konigsberg = Returns false.
Proof. vm_compute. reflexivity. Qed.

Example scenario_B : is_eulerian kaliningrad = Returns false.
Proof. vm_compute. reflexivity. Qed.

Example scenario_C :
  is_eulerian directed_cycle = Returns true ∧
  has_eulerian_path directed_cycle = Returns true.
Proof. split; vm_compute; reflexivity. Qed.

Example scenario_D :
  is_eulerian isolated_vertex = Returns false ∧
  has_eulerian_path isolated_vertex = Returns false.
Proof. split; vm_compute; reflexivity. Qed.

(** ** Criteria evaluated by the entry points *)

(** C1, as stated, at the null graph: the criterion holds there (no vertex
    has odd degree and no pair of vertices is disconnected) but
    [is_eulerian] does not return [True]; [nx.is_connected] raises. *)
Lemma C1_null_graph :
  is_eulerian (null_graph false) = Raises NetworkXPointlessConcept ∧
  ¬ (is_eulerian (null_graph false) = Returns true ↔
     circuit_criterion (null_graph false)).
Proof.
  split; [reflexivity|]. intros [_ Hc]. discriminate Hc.
  split; [by intros v ?%elem_of_nil|by intros u v ?%elem_of_nil].
Qed.

(** C1, amended: on every graph with at least one vertex, [is_eulerian]
    returns [True] exactly when, for a directed graph, every vertex has
    equal in-degree and out-degree and the graph is strongly connected,
    and for an undirected graph, every vertex has even degree and the
    graph is connected. *)
Theorem C1_is_eulerian_criterion {V : Type} `{EqDecision V} (G : Graph V) :
  wf G → nodes G ≠ [] →
  is_eulerian G = Returns true ↔
  if is_directed G then
    (∀ v, v ∈ nodes G → in_degree G v = out_degree G v) ∧
    strongly_connected G
  else
    (∀ v, v ∈ nodes G → (2 | degree G v)) ∧ connected G.
Proof. apply is_eulerian_criterion. Qed.

Lemma C1_witness :
  wf directed_cycle ∧ nodes directed_cycle ≠ [] ∧
  (is_eulerian directed_cycle = Returns true ↔
   (∀ v, v ∈ nodes directed_cycle →
         in_degree directed_cycle v = out_degree directed_cycle v) ∧
   strongly_connected directed_cycle).
Proof.
  assert (Hwf : wf directed_cycle) by compute_done.
  assert (Hne : nodes directed_cycle ≠ []) by (simpl; discriminate).
  split; [exact Hwf|]. split; [exact Hne|].
  exact (C1_is_eulerian_criterion directed_cycle Hwf Hne).
Defined.

(** C2, as stated, at the null graph: no vertex is odd and no pair of
    vertices is disconnected, but [has_eulerian_path] raises. *)
Lemma C2_null_graph :
  has_eulerian_path (null_graph false) = Raises NetworkXPointlessConcept ∧
  ¬ (has_eulerian_path (null_graph false) = Returns true ↔
     path_criterion (null_graph false)).
Proof.
  split; [reflexivity|]. intros [_ Hc]. discriminate Hc.
  split; [by left|by intros u v ?%elem_of_nil].
Qed.

(** C2, amended: on every graph with at least one vertex,
    [has_eulerian_path] returns [True] exactly when, for a directed graph,
    at most one vertex has in-degree − out-degree = 1, at most one has
    out-degree − in-degree = 1, at most two have in-degree ≠ out-degree and
    the graph is weakly connected, and for an undirected graph, the number
    of odd-degree vertices is 0 or 2 and the graph is connected. *)
Theorem C2_has_eulerian_path_criterion {V : Type} `{EqDecision V}
    (G : Graph V) :
  wf G → nodes G ≠ [] →
  has_eulerian_path G = Returns true ↔
  if is_directed G then
    semibalanced_in G ≤ 1 ∧ semibalanced_out G ≤ 1 ∧ imbalanced G ≤ 2 ∧
    connected G
  else
    (odd_count G = 0 ∨ odd_count G = 2) ∧ connected G.
Proof. apply has_eulerian_path_criterion. Qed.

Lemma C2_witness :
  wf kaliningrad ∧ nodes kaliningrad ≠ [] ∧
  (has_eulerian_path kaliningrad = Returns true ↔
   (odd_count kaliningrad = 0 ∨ odd_count kaliningrad = 2) ∧
   connected kaliningrad).
Proof.
  assert (Hwf : wf kaliningrad) by compute_done.
  assert (Hne : nodes kaliningrad ≠ []) by (simpl; discriminate).
  split; [exact Hwf|]. split; [exact Hne|].
  exact (C2_has_eulerian_path_criterion kaliningrad Hwf Hne).
Defined.

(** ** Existence of Eulerian circuits and walks *)

(** C3, as stated, at two parallel edges A–B beside a vertex C: the walk
    A, B, A over the two edges is an Eulerian circuit, and [is_eulerian]
    returns [False] because [nx.is_connected] counts the vertex C. *)
Lemma C3_two_bridges :
  has_eulerian_circuit two_bridges ∧
  is_eulerian two_bridges = Returns false ∧
  ¬ (is_eulerian two_bridges = Returns true ↔
     has_eulerian_circuit two_bridges).
Proof.
  assert (Hc : has_eulerian_circuit two_bridges).
  { exists "A", [("A","B"); ("B","A")]. split_and!.
    - compute_done.
    - repeat constructor.
    - exists [("A","B"); ("A","B")]. split; [done|].
      constructor; [by left|]. constructor; [right; by split|].
      constructor. }
  split; [done|]. split; [vm_compute; reflexivity|].
  intros [_ Hiff]. by specialize (Hiff Hc).
Qed.

(** Two parallel directed edges 0 → 1: [has_eulerian_path] returns [True]
    (no vertex has a difference of exactly 1, two vertices are
    imbalanced), although no walk can take both edges.  The docstring of
    [has_eulerian_path] asks for every other vertex to have equal in- and
    out-degree. *)
Lemma double_arc_accepted :
  has_eulerian_path double_arc = Returns true ∧
  ¬ has_eulerian_walk double_arc.
Proof.
  split; [vm_compute; reflexivity|]. intros (s & w & t & Hw).
  pose proof (eulerian_walk_degrees double_arc s w t 0 Hw) as Hd.
  simpl in Hd.
  change (in_degree double_arc 0) with 0 in Hd.
  change (out_degree double_arc 0) with 2 in Hd.
  repeat case_decide; lia.
Qed.

(** C3, amended: on every graph with at least one vertex whose vertices
    all lie in one component (direction ignored), parallel edges and
    self-loops allowed, [is_eulerian] returns [True] exactly when the
    graph has an Eulerian circuit; if the graph is undirected,
    [has_eulerian_path] returns [True] exactly when it has a walk
    traversing every edge exactly once; if it is directed,
    [has_eulerian_path] returns [True] whenever it has such a walk. *)
Theorem C3_existence_on_connected_graphs {V : Type} `{EqDecision V}
    (G : Graph V) :
  wf G → nodes G ≠ [] → connected G →
  (is_eulerian G = Returns true ↔ has_eulerian_circuit G) ∧
  (is_directed G = false →
   (has_eulerian_path G = Returns true ↔ has_eulerian_walk G)) ∧
  (is_directed G = true →
   has_eulerian_walk G → has_eulerian_path G = Returns true).
Proof.
  intros Hwf Hne Hc. split_and!.
  - by apply is_eulerian_iff_circuit.
  - by apply has_eulerian_path_iff_walk.
  - by apply has_eulerian_path_of_walk.
Qed.

Lemma C3_witness :
  wf kaliningrad ∧ nodes kaliningrad ≠ [] ∧ connected kaliningrad ∧
  (is_eulerian kaliningrad = Returns true ↔
   has_eulerian_circuit kaliningrad) ∧
  (is_directed kaliningrad = false →
   (has_eulerian_path kaliningrad = Returns true ↔
    has_eulerian_walk kaliningrad)) ∧
  (is_directed kaliningrad = true →
   has_eulerian_walk kaliningrad →
   has_eulerian_path kaliningrad = Returns true).
Proof.
  assert (Hwf : wf kaliningrad) by compute_done.
  assert (Hne : nodes kaliningrad ≠ []) by (simpl; discriminate).
  assert (Hc : connected kaliningrad).
  { apply (connected_by_search kaliningrad Hwf). vm_compute. reflexivity. }
  exact (conj Hwf (conj Hne (conj Hc
    (C3_existence_on_connected_graphs kaliningrad Hwf Hne Hc)))).
Defined.

(** ** Outcomes *)

(** C4, as stated, at the null graph: both entry points raise, for either
    graph kind. *)
Lemma C4_null_graph_raises :
  (∀ d, is_eulerian (null_graph d) = Raises NetworkXPointlessConcept) ∧
  (∀ d, has_eulerian_path (null_graph d) = Raises NetworkXPointlessConcept) ∧
  ¬ (∃ b, is_eulerian (null_graph false) = Returns b) ∧
  ¬ (∃ b, has_eulerian_path (null_graph false) = Returns b).
Proof.
  split_and!; try (by intros []); by intros [b Hb].
Qed.

(** C4, amended: on every graph with at least one vertex, each entry point
    returns a boolean. *)
Theorem C4_entry_points_return {V : Type} `{EqDecision V} (G : Graph V) :
  nodes G ≠ [] →
  (∃ b, is_eulerian G = Returns b) ∧ (∃ b, has_eulerian_path G = Returns b).
Proof.
  intros Hne. split; [by apply is_eulerian_returns|].
  by apply has_eulerian_path_returns.
Qed.

Lemma C4_witness :
  nodes konigsberg ≠ [] ∧
  (∃ b, is_eulerian konigsberg = Returns b) ∧
  (∃ b, has_eulerian_path konigsberg = Returns b).
Proof.
  assert (Hne : nodes konigsberg ≠ []) by (simpl; discriminate).
  split; [exact Hne|]. exact (C4_entry_points_return konigsberg Hne).
Defined.

(** ** Isolated vertices *)

(** C5: a graph that has, besides some vertex [u] (a vertex of the
    component carrying the edges), a further vertex [v] that no edge ends
    at, is rejected by both entry points.  No assumption on the rest of
    the graph is needed. *)
Theorem C5_isolated_vertex_rejected {V : Type} `{EqDecision V}
    (G : Graph V) (u v : V) :
  wf G → u ∈ nodes G → v ∈ nodes G → u ≠ v → isolated G v →
  is_eulerian G = Returns false ∧ has_eulerian_path G = Returns false.
Proof.
  intros Hwf Hu Hv Huv Hiso.
  assert (Hne : nodes G ≠ []) by (by intros Hn; rewrite Hn in Hu;
                                   apply elem_of_nil in Hu).
  pose proof (isolated_not_connected G u v Hu Hv Huv Hiso) as Hnc.
  split.
  - destruct (is_eulerian_returns G Hne) as [[] Hb]; [|done].
    apply is_eulerian_criterion in Hb; [|done..].
    by apply circuit_path_criterion in Hb; unfold path_criterion in Hb;
      destruct (is_directed G); tauto.
  - destruct (has_eulerian_path_returns G Hne) as [[] Hb]; [|done].
    apply has_eulerian_path_criterion in Hb; [|done..].
    unfold path_criterion in Hb; destruct (is_directed G); tauto.
Qed.

(** Scenario D: vertices A, B, C and the single edge A–B. *)
Lemma C5_witness :
  wf isolated_vertex ∧ "A" ∈ nodes isolated_vertex ∧
  "C" ∈ nodes isolated_vertex ∧ "A" ≠ "C" ∧ isolated isolated_vertex "C" ∧
  is_eulerian isolated_vertex = Returns false ∧
  has_eulerian_path isolated_vertex = Returns false.
Proof.
  assert (Hwf : wf isolated_vertex)
    by compute_done.
  assert (HA : "A" ∈ nodes isolated_vertex)
    by compute_done.
  assert (HC : "C" ∈ nodes isolated_vertex)
    by compute_done.
  assert (Hne : "A" ≠ "C") by discriminate.
  assert (Hiso : isolated isolated_vertex "C").
  { intros e ->%list_elem_of_singleton. simpl. split; discriminate. }
  split_and!; try assumption;
    apply (C5_isolated_vertex_rejected isolated_vertex "A" "C" Hwf HA HC Hne Hiso).
Defined.

(** ** Circuit implies path *)

(** C6: whenever [is_eulerian] returns [True], so does
    [has_eulerian_path]. *)
Theorem C6_circuit_implies_path {V : Type} `{EqDecision V} (G : Graph V) :
  wf G → is_eulerian G = Returns true → has_eulerian_path G = Returns true.
Proof.
  intros Hwf He.
  assert (Hne : nodes G ≠ []).
  { intros Hn. revert He. unfold is_eulerian, is_strongly_connected,
      is_connected, degree_view. rewrite Hn. by destruct (is_directed G). }
  apply has_eulerian_path_criterion; [done..|].
  apply circuit_path_criterion. by apply is_eulerian_criterion.
Qed.

Lemma C6_witness :
  wf directed_cycle ∧ is_eulerian directed_cycle = Returns true ∧
  has_eulerian_path directed_cycle = Returns true.
Proof.
  assert (Hwf : wf directed_cycle) by compute_done.
  assert (He : is_eulerian directed_cycle = Returns true)
    by (vm_compute; reflexivity).
  split; [exact Hwf|]. split; [exact He|].
  exact (C6_circuit_implies_path directed_cycle Hwf He).
Defined.

(** ** Directed balance *)

(** C7, as stated, at a vertex with two outgoing edges: two vertices have
    in-degree − out-degree = 1 and none has out-degree − in-degree = 1. *)
Lemma C7_fork_counts_differ :
  wf fork ∧ total_imbalance fork = 0%Z ∧
  semibalanced_in fork = 2 ∧ semibalanced_out fork = 0 ∧
  semibalanced_in fork ≠ semibalanced_out fork.
Proof.
  split; [compute_done|].
  split_and!; vm_compute; congruence.
Qed.

(** C7, amended: in every directed graph the in-degree − out-degree
    differences add up to 0; and when no vertex has a difference beyond
    ±1, as many vertices have in-degree − out-degree = 1 as have
    out-degree − in-degree = 1. *)
Theorem C7_directed_balance {V : Type} `{EqDecision V} (G : Graph V) :
  wf G →
  total_imbalance G = 0%Z ∧
  ((∀ v, v ∈ nodes G → (-1 ≤ imbalance G v ≤ 1)%Z) →
   semibalanced_in G = semibalanced_out G).
Proof.
  intros Hwf. pose proof (total_imbalance_zero G Hwf) as H0.
  split; [done|]. intros Hb.
  rewrite (total_imbalance_semibalanced G Hb) in H0. lia.
Qed.

Lemma C7_witness :
  wf directed_path ∧ total_imbalance directed_path = 0%Z ∧
  (∀ v, v ∈ nodes directed_path → (-1 ≤ imbalance directed_path v ≤ 1)%Z) ∧
  semibalanced_in directed_path = 1 ∧ semibalanced_out directed_path = 1.
Proof.
  assert (Hwf : wf directed_path) by compute_done.
  assert (Hb : ∀ v, v ∈ nodes directed_path →
                    (-1 ≤ imbalance directed_path v ≤ 1)%Z).
  { apply Forall_forall. compute_done. }
  destruct (C7_directed_balance directed_path Hwf) as [H0 Heq].
  specialize (Heq Hb).
  exact (conj Hwf (conj H0 (conj Hb
    (conj eq_refl (eq_trans (eq_sym Heq) eq_refl))))).
Defined.

(** ** Edge reversal *)

(** C8: reversing every edge of a directed graph changes the outcome of
    neither entry point. *)
Theorem C8_reverse_invariant {V : Type} `{EqDecision V} (G : Graph V) :
  wf G → is_directed G = true →
  is_eulerian (reverse G) = is_eulerian G ∧
  has_eulerian_path (reverse G) = has_eulerian_path G.
Proof.
  intros Hwf Hdir. destruct (nodes G) as [|x l] eqn:Hn.
  - unfold is_eulerian, has_eulerian_path, is_strongly_connected,
      is_weakly_connected. simpl. by rewrite Hdir, Hn.
  - assert (Hne : nodes G ≠ []) by (by rewrite Hn).
    assert (Hne' : nodes (reverse G) ≠ []) by done.
    pose proof (wf_reverse G Hwf) as Hwf'.
    split; apply returns_eq;
      auto using is_eulerian_returns, has_eulerian_path_returns.
    + rewrite !is_eulerian_criterion by done.
      by apply circuit_criterion_reverse.
    + rewrite !has_eulerian_path_criterion by done.
      by apply path_criterion_reverse.
Qed.

Lemma C8_witness :
  wf fork ∧ is_directed fork = true ∧
  is_eulerian (reverse fork) = is_eulerian fork ∧
  has_eulerian_path (reverse fork) = has_eulerian_path fork.
Proof.
  assert (Hwf : wf fork) by compute_done.
  split; [exact Hwf|]. split; [reflexivity|].
  exact (C8_reverse_invariant fork Hwf eq_refl).
Defined.

(** ** Graphs without edges *)

(** C9: on a graph with no edge and at least one vertex, [is_eulerian]
    returns [True] exactly when there is one vertex, and returns [False]
    when there are two or more. *)
Theorem C9_no_edges {V : Type} `{EqDecision V} (G : Graph V) :
  wf G → edges G = [] → nodes G ≠ [] →
  (is_eulerian G = Returns true ↔ len G = 1) ∧
  (len G = 1 → is_eulerian G = Returns true) ∧
  (2 ≤ len G → is_eulerian G = Returns false).
Proof.
  intros Hwf He Hne.
  assert (Hiff : is_eulerian G = Returns true ↔ len G = 1).
  { rewrite is_eulerian_criterion by done.
    by apply circuit_criterion_no_edges. }
  split_and!; [done|by apply Hiff|].
  intros Hlen. destruct (is_eulerian_returns G Hne) as [[] Hb]; [|done].
  apply Hiff in Hb. lia.
Qed.

Lemma C9_witness :
  wf (single_vertex false) ∧ edges (single_vertex false) = [] ∧
  nodes (single_vertex false) ≠ [] ∧
  (is_eulerian (single_vertex false) = Returns true ↔
   len (single_vertex false) = 1) ∧
  (len (single_vertex false) = 1 →
   is_eulerian (single_vertex false) = Returns true) ∧
  (2 ≤ len (single_vertex false) →
   is_eulerian (single_vertex false) = Returns false).
Proof.
  assert (Hwf : wf (single_vertex false))
    by compute_done.
  assert (Hne : nodes (single_vertex false) ≠ []) by (simpl; discriminate).
  split; [exact Hwf|]. split; [reflexivity|]. split; [exact Hne|].
  exact (C9_no_edges (single_vertex false) Hwf eq_refl Hne).
Defined.

(** C10: on the graph with one vertex and no edge, directed or not,
    [has_eulerian_path] returns [True]. *)
Theorem C10_single_vertex_path {V : Type} `{EqDecision V} (d : bool) (v : V) :
  has_eulerian_path (mkGraph d [v] []) = Returns true.
Proof. destruct d; reflexivity. Qed.

(** * Further properties of the entry points *)

Section further.
Context {V : Type} `{EqDecision V}.
Implicit Types (G : Graph V) (u v x y s t : V) (d e : V * V).

(** ** Exceptions *)

Lemma is_eulerian_null G :
  nodes G = [] → is_eulerian G = Raises NetworkXPointlessConcept.
Proof.
  intros Hn. unfold is_eulerian, is_strongly_connected, is_connected,
    degree_view. rewrite Hn. by destruct (is_directed G).
Qed.

Lemma has_eulerian_path_null G :
  nodes G = [] → has_eulerian_path G = Raises NetworkXPointlessConcept.
Proof.
  intros Hn. unfold has_eulerian_path, is_weakly_connected, is_connected,
    degree_view. rewrite Hn. by destruct (is_directed G).
Qed.

(** ** The handshake lemma *)

Lemma sum_degree G :
  wf G → sum_list (degree G <$> nodes G) = 2 * length (edges G).
Proof.
  intros Hwf.
  change (degree G) with (λ v, out_degree G v + in_degree G v).
  rewrite sum_list_fmap_add, sum_in_degree, sum_out_degree by done. lia.
Qed.

Lemma sum_parity (f : V → nat) (l : list V) :
  (2 | sum_list (f <$> l) + length (filter (λ v, ¬ (2 | f v)) l)).
Proof.
  induction l as [|a l [k IH]]; [by exists 0|].
  csimpl. rewrite filter_cons.
  destruct (decide (2 | f a)) as [[j Hj]|Hodd].
  - rewrite decide_False by (intros Hn; apply Hn; by exists j).
    exists (j + k). lia.
  - rewrite decide_True by done. simpl.
    destruct (odd_succ_even _ Hodd) as [j Hj]. exists (j + k). lia.
Qed.

Lemma odd_count_even G : wf G → (2 | odd_count G).
Proof.
  intros Hwf. destruct (sum_parity (degree G) (nodes G)) as [k Hk].
  rewrite sum_degree in Hk by done. unfold odd_count, count.
  exists (k - length (edges G)). lia.
Qed.

(** ** Counts *)

Lemma count_zero (P : V → Prop) `{∀ v, Decision (P v)} G :
  count P G = 0 ↔ ∀ v, v ∈ nodes G → ¬ P v.
Proof.
  split; [|apply count_none]. unfold count.
  intros Hl%length_zero_iff_nil v Hv HP.
  by destruct (filter_nil_not_elem_of _ _ v Hl HP).
Qed.

Lemma circuit_criterion_split G :
  wf G →
  circuit_criterion G ↔
  path_criterion G ∧
  if is_directed G then imbalanced G = 0 else odd_count G = 0.
Proof.
  intros Hwf. split.
  - intros Hc. split; [by apply circuit_path_criterion|].
    unfold circuit_criterion in Hc.
    destruct (is_directed G); apply count_none; intros v Hv;
      destruct Hc as [Hd _]; specialize (Hd v Hv); tauto.
  - unfold path_criterion, circuit_criterion. intros [Hp H0].
    destruct (is_directed G) eqn:Hdir.
    + destruct Hp as (_ & _ & _ & Hc).
      assert (Hbal : ∀ v, v ∈ nodes G → in_degree G v = out_degree G v).
      { intros v Hv. pose proof (proj1 (count_zero _ G) H0 v Hv) as Hn.
        simpl in Hn. destruct (decide (in_degree G v = out_degree G v)); tauto. }
      split; [done|].
      destruct (decide (nodes G = [])) as [Hn|Hne].
      { intros u v Hu. rewrite Hn in Hu. by apply elem_of_nil in Hu. }
      destruct (eulerian_circuit_exists G) as (s & w & Hw); try done.
      { apply balanced_nodes; [done|]. by rewrite Hdir. }
      by eapply circuit_strongly_connected.
    + destruct Hp as [_ Hc]. split; [|done]. intros v Hv.
      pose proof (proj1 (count_zero _ G) H0 v Hv) as Hn. simpl in Hn.
      destruct (decide (2 | degree G v)); tauto.
Qed.

End further.

(** X1: the number of odd-degree vertices that [has_eulerian_path] counts is
    even, because the degrees add up to twice the number of edges. *)
Theorem X1_handshake {V : Type} `{EqDecision V} (G : Graph V) :
  wf G →
  sum_list (degree G <$> nodes G) = 2 * length (edges G) ∧
  (2 | py_sum ((λ '(v, d), d mod 2 =? 1) <$> degree_view G)).
Proof.
  intros Hwf. split; [by apply sum_degree|].
  rewrite odd_count_spec. by apply odd_count_even.
Qed.

Lemma X1_witness :
  wf konigsberg ∧
  sum_list (degree konigsberg <$> nodes konigsberg)
    = 2 * length (edges konigsberg) ∧
  (2 | py_sum ((λ '(v, d), d mod 2 =? 1) <$> degree_view konigsberg)).
Proof.
  assert (Hwf : wf konigsberg) by compute_done.
  exact (conj Hwf (X1_handshake konigsberg Hwf)).
Defined.

(** X2: each entry point raises exactly on the null graph, and the
    exception is then [NetworkXPointlessConcept]; the graph-kind guards of
    the connectivity predicates never fire. *)
Theorem X2_raises_only_on_null_graph {V : Type} `{EqDecision V}
    (G : Graph V) (e : NetworkXException) :
  (is_eulerian G = Raises e ↔ nodes G = [] ∧ e = NetworkXPointlessConcept) ∧
  (has_eulerian_path G = Raises e ↔
   nodes G = [] ∧ e = NetworkXPointlessConcept).
Proof.
  destruct (decide (nodes G = [])) as [Hn|Hne].
  - rewrite is_eulerian_null, has_eulerian_path_null by done.
    split; split; try (intros [_ ->]; done); intros [= <-]; done.
  - destruct (is_eulerian_returns G Hne) as [b ->].
    destruct (has_eulerian_path_returns G Hne) as [b' ->].
    split; split; try done; intros [? _]; done.
Qed.

(** X3: [is_eulerian] returns [True] exactly when [has_eulerian_path] does
    and no vertex is left imbalanced (directed) or odd (undirected). *)
Theorem X3_circuit_iff_path_and_balance {V : Type} `{EqDecision V}
    (G : Graph V) :
  wf G →
  is_eulerian G = Returns true ↔
  has_eulerian_path G = Returns true ∧
  if is_directed G then imbalanced G = 0 else odd_count G = 0.
Proof.
  intros Hwf. destruct (decide (nodes G = [])) as [Hn|Hne].
  - rewrite is_eulerian_null, has_eulerian_path_null by done.
    split; [done|]. by intros [? _].
  - rewrite is_eulerian_criterion, has_eulerian_path_criterion by done.
    by apply circuit_criterion_split.
Qed.

Lemma X3_witness :
  wf kaliningrad ∧
  (is_eulerian kaliningrad = Returns true ↔
   has_eulerian_path kaliningrad = Returns true ∧ odd_count kaliningrad = 0).
Proof.
  assert (Hwf : wf kaliningrad) by compute_done.
  exact (conj Hwf (X3_circuit_iff_path_and_balance kaliningrad Hwf)).
Defined.

(** ** Graphs the entry points cannot tell apart *)

Section congruence.
Context {V : Type} `{EqDecision V}.
Implicit Types (G : Graph V) (u v x y s t : V) (d e : V * V).

Lemma rtc_through (R R' : relation V) x y :
  (∀ a b, R a b → rtc R' a b) → rtc R x y → rtc R' x y.
Proof.
  intros Hsub. induction 1 as [|a b c Hab _ IH]; [done|].
  etrans; [by apply Hsub|done].
Qed.

Lemma connected_congruence G G' :
  (∀ v, v ∈ nodes G ↔ v ∈ nodes G') →
  (∀ u v, link G u v → rtc (link G') u v) →
  (∀ u v, link G' u v → rtc (link G) u v) →
  connected G ↔ connected G'.
Proof.
  intros Hn Hl Hl'. unfold connected.
  split; intros Hc u v Hu Hv;
    (eapply rtc_through; [|apply Hc; by apply Hn]); done.
Qed.

Lemma strongly_connected_congruence G G' :
  (∀ v, v ∈ nodes G ↔ v ∈ nodes G') →
  (∀ u v, arc G u v → rtc (arc G') u v) →
  (∀ u v, arc G' u v → rtc (arc G) u v) →
  strongly_connected G ↔ strongly_connected G'.
Proof.
  intros Hn Hl Hl'. unfold strongly_connected.
  split; intros Hc u v Hu Hv;
    (eapply rtc_through; [|apply Hc; by apply Hn]); done.
Qed.

Lemma count_congruence (P Q : V → Prop)
    `{∀ v, Decision (P v), ∀ v, Decision (Q v)} G G' :
  nodes G ≡ₚ nodes G' → (∀ v, P v ↔ Q v) → count P G = count Q G'.
Proof.
  intros Hp HPQ. unfold count.
  rewrite (filter_perm_length P _ _ Hp). f_equal. by apply list_filter_iff.
Qed.

(** The criteria only look at the kind, the set of nodes, the imbalance
    (directed) or parity (undirected) of each vertex, and which vertices
    can be reached from which. *)
Lemma criteria_congruence G G' :
  is_directed G = is_directed G' → nodes G ≡ₚ nodes G' →
  (if is_directed G then ∀ v, imbalance G v = imbalance G' v
   else ∀ v, (2 | degree G v) ↔ (2 | degree G' v)) →
  (connected G ↔ connected G') →
  (is_directed G = true → strongly_connected G ↔ strongly_connected G') →
  (circuit_criterion G ↔ circuit_criterion G') ∧
  (path_criterion G ↔ path_criterion G').
Proof.
  intros Hdir Hp Hdeg Hc Ha.
  assert (Hn : ∀ v, v ∈ nodes G ↔ v ∈ nodes G') by (intros; by rewrite Hp).
  unfold circuit_criterion, path_criterion. rewrite <- Hdir.
  destruct (is_directed G).
  - pose proof (Ha eq_refl) as Hs.
    assert (Hb : ∀ v, in_degree G v = out_degree G v ↔
                      in_degree G' v = out_degree G' v).
    { intros v. specialize (Hdeg v). unfold imbalance in Hdeg. lia. }
    unfold semibalanced_in, semibalanced_out, imbalanced.
    rewrite (count_congruence (λ v, imbalance G v = 1%Z)
               (λ v, imbalance G' v = 1%Z) G G'),
      (count_congruence (λ v, (- imbalance G v)%Z = 1%Z)
               (λ v, (- imbalance G' v)%Z = 1%Z) G G'),
      (count_congruence (λ v, in_degree G v ≠ out_degree G v)
               (λ v, in_degree G' v ≠ out_degree G' v) G G'), Hc, Hs;
      try done; try (intros v; by rewrite ?Hdeg, ?Hb).
    split; [|done]. setoid_rewrite Hn. setoid_rewrite Hb. done.
  - unfold odd_count.
    rewrite (count_congruence (λ v, ¬ (2 | degree G v))
               (λ v, ¬ (2 | degree G' v)) G G'), Hc;
      try done; try (intros v; by rewrite Hdeg).
    split; [|done]. setoid_rewrite Hn. setoid_rewrite Hdeg. done.
Qed.

Lemma outcomes_congruence G G' :
  wf G → wf G' →
  is_directed G = is_directed G' → nodes G ≡ₚ nodes G' →
  (if is_directed G then ∀ v, imbalance G v = imbalance G' v
   else ∀ v, (2 | degree G v) ↔ (2 | degree G' v)) →
  (connected G ↔ connected G') →
  (is_directed G = true → strongly_connected G ↔ strongly_connected G') →
  is_eulerian G = is_eulerian G' ∧
  has_eulerian_path G = has_eulerian_path G'.
Proof.
  intros Hwf Hwf' Hdir Hp Hdeg Hl Ha.
  destruct (decide (nodes G = [])) as [Hn|Hne].
  - assert (Hn' : nodes G' = []).
    { symmetry. apply Permutation_nil_l. by rewrite <- Hn, Hp. }
    by rewrite !is_eulerian_null, !has_eulerian_path_null.
  - assert (Hne' : nodes G' ≠ []).
    { intros Hn'. apply Hne, Permutation_nil_r. by rewrite Hp, Hn'. }
    destruct (criteria_congruence G G' Hdir Hp Hdeg Hl Ha) as [Hc Hpc].
    split; apply returns_eq;
      auto using is_eulerian_returns, has_eulerian_path_returns.
    + by rewrite !is_eulerian_criterion.
    + by rewrite !has_eulerian_path_criterion.
Qed.

(** *** Another order of nodes and edges *)

Lemma wf_perm G G' :
  wf G → nodes G' ≡ₚ nodes G → edges G' ≡ₚ edges G → wf G'.
Proof.
  intros [Hnd Hwf] Hn He. split; [by rewrite Hn|].
  intros e. rewrite He, Hn. apply Hwf.
Qed.

Lemma outcomes_perm G G' :
  wf G → is_directed G' = is_directed G →
  nodes G' ≡ₚ nodes G → edges G' ≡ₚ edges G →
  is_eulerian G' = is_eulerian G ∧
  has_eulerian_path G' = has_eulerian_path G.
Proof.
  intros Hwf Hdir Hn He.
  assert (Harc : ∀ u v, arc G' u v ↔ arc G u v).
  { intros u v. unfold arc. by rewrite He. }
  assert (Hlink : ∀ u v, link G' u v ↔ link G u v).
  { intros u v. unfold link. by rewrite He. }
  assert (Hin : ∀ v, in_degree G' v = in_degree G v).
  { intros v. by apply filter_perm_length. }
  assert (Hout : ∀ v, out_degree G' v = out_degree G v).
  { intros v. by apply filter_perm_length. }
  assert (Hmem : ∀ v, v ∈ nodes G' ↔ v ∈ nodes G) by (intros; by rewrite Hn).
  apply outcomes_congruence; try done.
  - by eapply wf_perm.
  - destruct (is_directed G'); intros v; unfold imbalance, degree;
      by rewrite Hin, Hout.
  - apply connected_congruence; [done|..];
      intros u v ?%Hlink; by apply rtc_once.
  - intros _. apply strongly_connected_congruence; [done|..];
      intros u v ?%Harc; by apply rtc_once.
Qed.

(** *** Another orientation of undirected edges *)

Lemma same_ends_degree (es es' : list (V * V)) v :
  Forall2 same_ends es es' →
  out_deg es v + in_deg es v = out_deg es' v + in_deg es' v.
Proof.
  unfold out_deg, in_deg.
  induction 1 as [|[a b] e' es es' [->| ->] _ IH]; [done|..];
    rewrite !filter_cons; simpl; repeat case_decide; simpl; try done; lia.
Qed.

Lemma same_ends_elem (es es' : list (V * V)) e :
  Forall2 same_ends es es' → e ∈ es → e ∈ es' ∨ prod_swap e ∈ es'.
Proof.
  induction 1 as [|e0 e' es es' Hs _ IH]; [by intros ?%elem_of_nil|].
  intros [->|He]%elem_of_cons.
  - destruct Hs as [->| ->]; [left|right]; by left.
  - destruct (IH He); [left|right]; by right.
Qed.

Lemma same_ends_flip (es es' : list (V * V)) :
  Forall2 same_ends es es' → Forall2 same_ends es' es.
Proof.
  intros Hf. apply Forall2_flip. eapply Forall2_impl; [done|].
  intros [a b] e' [->| ->]; [by left|by right].
Qed.

Lemma same_ends_link G G' u v :
  Forall2 same_ends (edges G) (edges G') → link G u v → link G' u v.
Proof.
  intros Hf [He|He]; apply (same_ends_elem _ _ _ Hf) in He;
    unfold link; simpl in He; tauto.
Qed.

Lemma outcomes_same_ends G G' :
  wf G → is_directed G = false → is_directed G' = false →
  nodes G' = nodes G → Forall2 same_ends (edges G) (edges G') →
  is_eulerian G' = is_eulerian G ∧
  has_eulerian_path G' = has_eulerian_path G.
Proof.
  intros Hwf Hdir Hdir' Hn Hf.
  pose proof (same_ends_flip _ _ Hf) as Hf'.
  apply outcomes_congruence; try done.
  - destruct Hwf as [Hnd Hwf]. split; [by rewrite Hn|]. rewrite Hn.
    intros e He. apply (same_ends_elem _ _ _ Hf') in He as [He|He];
      apply Hwf in He; destruct e; simpl in *; tauto.
  - congruence.
  - by rewrite Hn.
  - rewrite Hdir'. intros v. unfold degree.
    change (out_degree G' v + in_degree G' v)
      with (out_deg (edges G') v + in_deg (edges G') v).
    rewrite (same_ends_degree _ _ v Hf'). done.
  - apply connected_congruence; [by rewrite Hn|..];
      intros u v Hl; apply rtc_once; by eapply same_ends_link.
  - by rewrite Hdir'.
Qed.

(** *** A further self-loop *)

Lemma outcomes_self_loop G v :
  wf G → v ∈ nodes G →
  is_eulerian (add_edge G (v, v)) = is_eulerian G ∧
  has_eulerian_path (add_edge G (v, v)) = has_eulerian_path G.
Proof.
  intros Hwf Hv.
  assert (Harc : ∀ x y, arc (add_edge G (v, v)) x y ↔
                        (x = v ∧ y = v) ∨ arc G x y).
  { intros x y. unfold arc. simpl. rewrite elem_of_cons. naive_solver. }
  apply outcomes_congruence; try done.
  - by apply wf_add_edge.
  - simpl. destruct (is_directed G); intros x.
    + unfold imbalance, in_degree, out_degree. simpl. rewrite !filter_cons.
      simpl. case_decide; simpl; lia.
    + rewrite degree_add_edge. simpl.
      case_decide; [|by rewrite !Nat.add_0_r].
      split; intros [k Hk]; [exists (k - 1)|exists (k + 1)]; lia.
  - apply connected_congruence; [done|..]; intros x y.
    + intros [[[-> ->]|?]%Harc|[[-> ->]|?]%Harc]; try done;
        apply rtc_once; [by left|by right].
    + intros [?|?]; apply rtc_once; [left|right]; apply Harc; by right.
  - intros _. apply strongly_connected_congruence; [done|..]; intros x y.
    + intros [[-> ->]|?]%Harc; [done|by apply rtc_once].
    + intros ?. apply rtc_once, Harc. by right.
Qed.

End congruence.

(** ** Directed graphs: what the three counts decide *)

Section directed_counts.
Context {V : Type} `{EqDecision V}.
Implicit Types (G : Graph V) (u v x y s t : V) (d e : V * V).

Lemma exactly_one (P : V → Prop) `{∀ v, Decision (P v)} (l : list V) :
  length (filter P l) = 1 →
  ∃ p, p ∈ l ∧ P p ∧ ∀ v, v ∈ l → P v → v = p.
Proof.
  intros Hlen.
  assert (Hin : ∀ v, v ∈ filter P l ↔ P v ∧ v ∈ l)
    by (intros; apply list_elem_of_filter).
  destruct (filter P l) as [|p [|? ?]]; try done.
  exists p. destruct (proj1 (Hin p)) as [HP Hp]; [by left|].
  split_and!; [done..|]. intros v Hv HPv.
  assert (Hv' : v ∈ [p]) by by apply Hin.
  by apply list_elem_of_singleton in Hv'.
Qed.

Lemma in_degree_add_edge G e v :
  in_degree (add_edge G e) v =
  in_degree G v + (if decide (e.2 = v) then 1 else 0).
Proof.
  unfold in_degree. simpl. rewrite filter_cons.
  case_decide; simpl; lia.
Qed.

Lemma out_degree_add_edge G e v :
  out_degree (add_edge G e) v =
  out_degree G v + (if decide (e.1 = v) then 1 else 0).
Proof.
  unfold out_degree. simpl. rewrite filter_cons.
  case_decide; simpl; lia.
Qed.

(** Euler's theorem for walks in directed graphs, sufficiency: with every
    imbalance within ±1 and at most one vertex at +1, a connected graph
    has an Eulerian walk. *)
Lemma directed_walk_exists G :
  wf G → nodes G ≠ [] → is_directed G = true → connected G →
  (∀ v, v ∈ nodes G → (-1 ≤ imbalance G v ≤ 1)%Z) →
  semibalanced_in G ≤ 1 → has_eulerian_walk G.
Proof.
  intros Hwf Hne Hdir Hc Hb Hin.
  pose proof (total_imbalance_zero G Hwf) as H0.
  rewrite (total_imbalance_semibalanced G Hb) in H0.
  destruct (decide (semibalanced_in G = 0)) as [Hz|Hnz].
  - destruct (eulerian_circuit_exists G) as (s & w & Hw); try done.
    + apply balanced_nodes; [done|]. rewrite Hdir. intros v Hv.
      assert (semibalanced_out G = 0) as Hz' by lia.
      pose proof (proj1 (count_zero _ G) Hz v Hv) as H1.
      pose proof (proj1 (count_zero _ G) Hz' v Hv) as H2.
      specialize (Hb v Hv). simpl in H1, H2. unfold imbalance in *. lia.
    + by exists s, w, s.
  - assert (Hi1 : semibalanced_in G = 1) by lia.
    assert (Ho1 : semibalanced_out G = 1) by lia.
    destruct (exactly_one _ _ Hi1) as (t & Ht & Himt & Hut).
    destruct (exactly_one _ _ Ho1) as (s & Hs & Hims & Hus).
    simpl in Himt, Hims, Hut, Hus.
    pose proof (wf_add_edge G (t, s) Hwf Ht Hs) as Hwf'.
    destruct (eulerian_circuit_exists (add_edge G (t, s)))
      as (s' & w & (steps & -> & Htr)%trail_eulerian_walk); try done.
    + apply balanced_nodes; [done|]. simpl. rewrite Hdir. intros v Hv.
      rewrite in_degree_add_edge, out_degree_add_edge. simpl.
      specialize (Hb v Hv). specialize (Hut v Hv). specialize (Hus v Hv).
      unfold imbalance in *.
      destruct (decide (s = v)) as [->|Hsv];
        destruct (decide (t = v)) as [->|Htv]; try lia.
      assert (in_degree G v ≠ out_degree G v + 1)
        by (intros ?; apply Htv; symmetry; apply Hut; lia).
      assert (in_degree G v + 1 ≠ out_degree G v)
        by (intros ?; apply Hsv; symmetry; apply Hus; lia).
      lia.
    + by apply connected_add_edge.
    + destruct (trail_remove_edge G (t, s) s' steps Hwf Ht Hs Htr)
        as (a & steps' & b & Htr').
      exists a, (dart <$> steps'), b. apply trail_eulerian_walk.
      by exists steps'.
Qed.

(** Balanced vertices contribute nothing to the total imbalance. *)
Lemma total_imbalance_filter G :
  total_imbalance G =
  foldr Z.add 0%Z
    (imbalance G <$> filter (λ v, in_degree G v ≠ out_degree G v) (nodes G)).
Proof.
  unfold total_imbalance. induction (nodes G) as [|a l IH]; [done|].
  rewrite filter_cons. csimpl. rewrite IH.
  case_decide; csimpl; [done|]. unfold imbalance.
  destruct (decide (in_degree G a = out_degree G a)); [lia|done].
Qed.

Lemma count_within_imbalanced (P : V → Prop) `{∀ v, Decision (P v)} G :
  (∀ v, P v → in_degree G v ≠ out_degree G v) →
  count P G =
  length (filter P (filter (λ v, in_degree G v ≠ out_degree G v) (nodes G))).
Proof.
  intros HP. unfold count. rewrite list_filter_filter. f_equal.
  apply list_filter_iff. naive_solver.
Qed.

(** With at most two imbalanced vertices, at most one has in − out = 1
    and at most one has out − in = 1. *)
Lemma imbalanced_semibalanced G :
  wf G → imbalanced G ≤ 2 → semibalanced_in G ≤ 1 ∧ semibalanced_out G ≤ 1.
Proof.
  intros Hwf H2. pose proof (total_imbalance_zero G Hwf) as H0.
  rewrite total_imbalance_filter in H0.
  unfold semibalanced_in, semibalanced_out.
  rewrite !count_within_imbalanced by (unfold imbalance; intros; lia).
  unfold imbalanced, count in H2.
  assert (Hin : ∀ v, v ∈ filter (λ v, in_degree G v ≠ out_degree G v)
                           (nodes G) → in_degree G v ≠ out_degree G v).
  { by intros v [? _]%list_elem_of_filter. }
  destruct (filter _ (nodes G)) as [|a [|b [|c l]]]; simpl in H2; [..|lia].
  - simpl. lia.
  - exfalso. apply (Hin a); [by left|]. csimpl in H0.
    unfold imbalance in H0. lia.
  - csimpl in H0. rewrite !filter_cons, !filter_nil.
    repeat case_decide; simpl; lia.
Qed.

Lemma path_criterion_directed G :
  wf G → is_directed G = true →
  path_criterion G ↔ imbalanced G ≤ 2 ∧ connected G.
Proof.
  intros Hwf Hdir. unfold path_criterion. rewrite Hdir. split; [tauto|].
  intros [H2 Hc]. destruct (imbalanced_semibalanced G Hwf H2). tauto.
Qed.

End directed_counts.

(** ** Graphs without isolated vertices *)

Section no_isolated.
Context {V : Type} `{EqDecision V}.
Implicit Types (G : Graph V) (u v x y s t : V) (d e : V * V).

Lemma walk_links G s w t :
  walk s w t → (∀ d, d ∈ w → link G d.1 d.2) →
  ∀ d, d ∈ w → rtc (link G) s d.1 ∧ rtc (link G) s d.2.
Proof.
  induction 1 as [|a b w t _ IH]; [by intros _ d ?%elem_of_nil|].
  intros Hl d Hd.
  assert (Hab : link G a b) by (apply (Hl (a, b)); by left).
  apply elem_of_cons in Hd as [->|Hd].
  - simpl. split; [done|by apply rtc_once].
  - destruct (IH (λ d Hd, Hl d (list_elem_of_further _ _ _ Hd)) d Hd).
    split; by eapply rtc_l.
Qed.

(** A walk over all edges passes through every vertex that has an edge. *)
Lemma eulerian_walk_connected G s w t :
  no_isolated G → eulerian_walk G s w t → connected G.
Proof.
  intros Hiso (steps & -> & Htr)%trail_eulerian_walk.
  destruct Htr as (Hs & Hw & _ & Hp). rewrite app_nil_r in Hp.
  assert (Hl : ∀ d, d ∈ dart <$> steps → link G d.1 d.2).
  { intros d (st & -> & Hst)%list_elem_of_fmap.
    assert (He : st.1 ∈ edges G).
    { rewrite <- Hp. by apply list_elem_of_fmap_2. }
    destruct st as [[a b] []]; unfold dart, link; simpl in *; tauto. }
  assert (Hreach : ∀ v, v ∈ nodes G → rtc (link G) s v).
  { intros v Hv. destruct (Hiso v Hv) as (e & He & Hends).
    rewrite <- Hp in He. apply list_elem_of_fmap in He as (st & -> & Hst).
    destruct (walk_links G s _ t Hw Hl (dart st)) as [H1 H2].
    { by apply list_elem_of_fmap_2. }
    apply dart_ends in Hends as [<-|<-]; done. }
  by apply (connected_from G s).
Qed.

Lemma exact_without_isolated G :
  wf G → no_isolated G →
  (is_eulerian G = Returns true ↔ has_eulerian_circuit G) ∧
  (is_directed G = false →
   (has_eulerian_path G = Returns true ↔ has_eulerian_walk G)).
Proof.
  intros Hwf Hiso.
  assert (Hnull : ∀ s, s ∈ nodes G → nodes G ≠ []).
  { intros s Hs Hn. rewrite Hn in Hs. by apply elem_of_nil in Hs. }
  split; [|intros Hdir]; split.
  - intros He. destruct (decide (nodes G = [])) as [Hn|Hne].
    { by rewrite is_eulerian_null in He. }
    apply is_eulerian_iff_circuit; try done.
    apply is_eulerian_criterion, circuit_path_criterion in He; try done.
    unfold path_criterion in He. destruct (is_directed G); tauto.
  - intros (s & w & Hw). apply is_eulerian_iff_circuit.
    + done.
    + apply (Hnull s), Hw.
    + by eapply eulerian_walk_connected.
    + by exists s, w.
  - intros He. destruct (decide (nodes G = [])) as [Hn|Hne].
    { by rewrite has_eulerian_path_null in He. }
    apply has_eulerian_path_iff_walk; try done.
    apply has_eulerian_path_criterion in He; try done.
    unfold path_criterion in He. rewrite Hdir in He. tauto.
  - intros (s & w & t & Hw). apply has_eulerian_path_iff_walk.
    + done.
    + apply (Hnull s), Hw.
    + by eapply eulerian_walk_connected.
    + done.
    + by exists s, w, t.
Qed.

End no_isolated.

(** ** Graphs built by [add_edges_from] *)

Section built.
Context {V K : Type} `{EqDecision V, EqDecision K}.
Implicit Types (M : MultiGraph V K) (u v n : V) (key : K).

Lemma elem_of_add_node (ns : list V) n x :
  x ∈ add_node ns n ↔ x ∈ ns ∨ x = n.
Proof.
  unfold add_node. case_decide.
  - naive_solver.
  - rewrite elem_of_app, list_elem_of_singleton. done.
Qed.

Lemma NoDup_add_node (ns : list V) n : NoDup ns → NoDup (add_node ns n).
Proof.
  intros Hnd. unfold add_node. case_decide; [done|].
  apply NoDup_app. split_and!; [done| |apply NoDup_singleton].
  by intros x Hx ->%list_elem_of_singleton.
Qed.

Lemma mg_add_edge_nodes M u v key x :
  x ∈ mg_nodes (mg_add_edge M u v key) ↔ x ∈ mg_nodes M ∨ x = u ∨ x = v.
Proof.
  unfold mg_add_edge. case_decide; simpl;
    rewrite !elem_of_add_node; tauto.
Qed.

(** The edge asked for is there afterwards, under its own or the other
    orientation. *)
Lemma mg_add_edge_has M u v key :
  (u, v) ∈ (mg_edges (mg_add_edge M u v key)).*1 ∨
  (v, u) ∈ (mg_edges (mg_add_edge M u v key)).*1.
Proof.
  unfold mg_add_edge. case_decide as Hk; simpl.
  - apply Exists_exists in Hk as ([e k] & He & _ & Hends). simpl in Hends.
    destruct Hends as [->| ->]; [left|right];
      by apply (list_elem_of_fmap_2 fst _ (_, k)).
  - left. rewrite fmap_app, elem_of_app. right. by left.
Qed.

Lemma mg_add_edge_keeps M u v key e :
  e ∈ (mg_edges M).*1 → e ∈ (mg_edges (mg_add_edge M u v key)).*1.
Proof.
  unfold mg_add_edge. case_decide; simpl; [done|].
  rewrite fmap_app, elem_of_app. by left.
Qed.

Lemma mg_add_edge_edges M u v key e :
  e ∈ (mg_edges (mg_add_edge M u v key)).*1 →
  e ∈ (mg_edges M).*1 ∨ e = (u, v).
Proof.
  unfold mg_add_edge. case_decide; simpl; [by left|].
  rewrite fmap_app, elem_of_app. simpl. rewrite list_elem_of_singleton. done.
Qed.

Lemma mg_add_edge_inv M u v key :
  wf (graph_of M) ∧ no_isolated (graph_of M) →
  wf (graph_of (mg_add_edge M u v key)) ∧
  no_isolated (graph_of (mg_add_edge M u v key)).
Proof.
  intros [[Hnd Hwf] Hiso]. simpl in *. split; [split|]; simpl.
  - unfold mg_add_edge. case_decide; simpl; by do 2 apply NoDup_add_node.
  - intros e [He| ->]%mg_add_edge_edges; rewrite !mg_add_edge_nodes.
    + destruct (Hwf e He). tauto.
    + simpl. tauto.
  - intros x [Hx|Hx]%mg_add_edge_nodes.
    + destruct (Hiso x Hx) as (e & He & Hends). exists e.
      split; [by apply mg_add_edge_keeps|done].
    + destruct (mg_add_edge_has M u v key) as [He|He];
        [exists (u, v)|exists (v, u)]; (split; [done|]); simpl;
        destruct Hx as [->| ->]; auto.
Qed.

Lemma add_edges_from_inv (ebunch : list (V * V * K)) M :
  wf (graph_of M) ∧ no_isolated (graph_of M) →
  wf (graph_of (add_edges_from M ebunch)) ∧
  no_isolated (graph_of (add_edges_from M ebunch)).
Proof.
  revert M. induction ebunch as [|[[u v] key] ebunch IH]; intros M HM;
    [done|].
  apply (IH (mg_add_edge M u v key)). by apply mg_add_edge_inv.
Qed.

Lemma MultiGraph_new_inv :
  wf (graph_of (MultiGraph_new (V:=V) (K:=K))) ∧
  no_isolated (graph_of (MultiGraph_new (V:=V) (K:=K))).
Proof.
  split; [split|]; simpl.
  - apply NoDup_nil_2.
  - by intros e ?%elem_of_nil.
  - by intros v ?%elem_of_nil.
Qed.


End built.

(** ** The further properties *)

(** X4: the outcome of either entry point does not depend on the order in
    which the graph lists its nodes and its edges (and so not on which
    node the connectivity search starts from). *)
Theorem X4_order_independent {V : Type} `{EqDecision V} (G G' : Graph V) :
  wf G → is_directed G' = is_directed G →
  nodes G' ≡ₚ nodes G → edges G' ≡ₚ edges G →
  is_eulerian G' = is_eulerian G ∧
  has_eulerian_path G' = has_eulerian_path G.
Proof. apply outcomes_perm. Qed.

Lemma X4_witness :
  wf kaliningrad ∧
  is_directed kaliningrad_shuffled = is_directed kaliningrad ∧
  nodes kaliningrad_shuffled ≡ₚ nodes kaliningrad ∧
  edges kaliningrad_shuffled ≡ₚ edges kaliningrad ∧
  is_eulerian kaliningrad_shuffled = is_eulerian kaliningrad ∧
  has_eulerian_path kaliningrad_shuffled = has_eulerian_path kaliningrad.
Proof.
  assert (Hwf : wf kaliningrad) by compute_done.
  assert (Hn : nodes kaliningrad_shuffled ≡ₚ nodes kaliningrad)
    by compute_done.
  assert (He : edges kaliningrad_shuffled ≡ₚ edges kaliningrad)
    by compute_done.
  exact (conj Hwf (conj eq_refl (conj Hn (conj He
    (X4_order_independent kaliningrad kaliningrad_shuffled
       Hwf eq_refl Hn He))))).
Defined.

(** X5: in an undirected graph, the outcome of either entry point does not
    depend on which end of an edge is stored first. *)
Theorem X5_orientation_independent {V : Type} `{EqDecision V}
    (G G' : Graph V) :
  wf G → is_directed G = false → is_directed G' = false →
  nodes G' = nodes G → Forall2 same_ends (edges G) (edges G') →
  is_eulerian G' = is_eulerian G ∧
  has_eulerian_path G' = has_eulerian_path G.
Proof. apply outcomes_same_ends. Qed.

Lemma X5_witness :
  wf kaliningrad ∧
  Forall2 same_ends (edges kaliningrad) (edges kaliningrad_flipped) ∧
  is_eulerian kaliningrad_flipped = is_eulerian kaliningrad ∧
  has_eulerian_path kaliningrad_flipped = has_eulerian_path kaliningrad.
Proof.
  assert (Hwf : wf kaliningrad) by compute_done.
  assert (Hf : Forall2 same_ends (edges kaliningrad)
                 (edges kaliningrad_flipped)).
  { repeat (constructor; [first [by left|by right]|]). constructor. }
  exact (conj Hwf (conj Hf
    (X5_orientation_independent kaliningrad kaliningrad_flipped
       Hwf eq_refl eq_refl eq_refl Hf))).
Defined.

(** X6: adding a self-loop at a vertex of the graph changes the outcome of
    neither entry point. *)
Theorem X6_self_loop_invariant {V : Type} `{EqDecision V}
    (G : Graph V) (v : V) :
  wf G → v ∈ nodes G →
  is_eulerian (add_edge G (v, v)) = is_eulerian G ∧
  has_eulerian_path (add_edge G (v, v)) = has_eulerian_path G.
Proof. apply outcomes_self_loop. Qed.

Lemma X6_witness :
  wf directed_cycle ∧ 2 ∈ nodes directed_cycle ∧
  is_eulerian (add_edge directed_cycle (2, 2)) = is_eulerian directed_cycle ∧
  has_eulerian_path (add_edge directed_cycle (2, 2))
    = has_eulerian_path directed_cycle.
Proof.
  assert (Hwf : wf directed_cycle) by compute_done.
  assert (Hv : 2 ∈ nodes directed_cycle) by compute_done.
  exact (conj Hwf (conj Hv (X6_self_loop_invariant directed_cycle 2 Hwf Hv))).
Defined.

(** X7: when [has_eulerian_path] returns [True] on a directed graph, the
    graph has a walk traversing every edge exactly once if and only if no
    vertex has in-degree and out-degree more than 1 apart. *)
Theorem X7_directed_path_sound_iff_bounded {V : Type} `{EqDecision V}
    (G : Graph V) :
  wf G → is_directed G = true → has_eulerian_path G = Returns true →
  has_eulerian_walk G ↔
  ∀ v, v ∈ nodes G → (-1 ≤ imbalance G v ≤ 1)%Z.
Proof.
  intros Hwf Hdir Hp.
  assert (Hne : nodes G ≠ []).
  { intros Hn. by rewrite has_eulerian_path_null in Hp. }
  apply has_eulerian_path_criterion in Hp; [|done..].
  unfold path_criterion in Hp. rewrite Hdir in Hp.
  destruct Hp as (Hin & _ & _ & Hc). split.
  - intros (s & w & t & Hw) v _.
    pose proof (eulerian_walk_degrees G s w t v Hw) as Hd.
    rewrite Hdir in Hd. unfold imbalance. repeat case_decide; lia.
  - intros Hb. by apply directed_walk_exists.
Qed.

Lemma X7_witness :
  wf directed_path ∧ is_directed directed_path = true ∧
  has_eulerian_path directed_path = Returns true ∧
  (has_eulerian_walk directed_path ↔
   ∀ v, v ∈ nodes directed_path → (-1 ≤ imbalance directed_path v ≤ 1)%Z).
Proof.
  assert (Hwf : wf directed_path) by compute_done.
  assert (Hp : has_eulerian_path directed_path = Returns true)
    by (vm_compute; reflexivity).
  exact (conj Hwf (conj eq_refl (conj Hp
    (X7_directed_path_sound_iff_bounded directed_path Hwf eq_refl Hp)))).
Defined.

(** X8: on a directed graph the two semibalanced counts never decide the
    outcome: [has_eulerian_path] returns [True] exactly when the graph has
    a vertex, at most two vertices have in-degree ≠ out-degree, and the
    graph is weakly connected. *)
Theorem X8_directed_path_two_imbalanced {V : Type} `{EqDecision V}
    (G : Graph V) :
  wf G → is_directed G = true →
  has_eulerian_path G = Returns true ↔
  nodes G ≠ [] ∧ imbalanced G ≤ 2 ∧ connected G.
Proof.
  intros Hwf Hdir. destruct (decide (nodes G = [])) as [Hn|Hne].
  - rewrite has_eulerian_path_null by done. split; [done|tauto].
  - rewrite has_eulerian_path_criterion, path_criterion_directed by done.
    tauto.
Qed.

Lemma X8_witness :
  wf double_arc ∧ is_directed double_arc = true ∧
  (has_eulerian_path double_arc = Returns true ↔
   nodes double_arc ≠ [] ∧ imbalanced double_arc ≤ 2 ∧ connected double_arc).
Proof.
  assert (Hwf : wf double_arc) by compute_done.
  exact (conj Hwf (conj eq_refl
    (X8_directed_path_two_imbalanced double_arc Hwf eq_refl))).
Defined.

(** X9: on a graph in which every vertex is an end of some edge,
    [is_eulerian] returns [True] exactly when the graph has an Eulerian
    circuit, and on such an undirected graph [has_eulerian_path] returns
    [True] exactly when it has a walk traversing every edge exactly
    once. *)
Theorem X9_exact_without_isolated_vertices {V : Type} `{EqDecision V}
    (G : Graph V) :
  wf G → no_isolated G →
  (is_eulerian G = Returns true ↔ has_eulerian_circuit G) ∧
  (is_directed G = false →
   (has_eulerian_path G = Returns true ↔ has_eulerian_walk G)).
Proof. apply exact_without_isolated. Qed.

Lemma X9_witness :
  wf konigsberg ∧ no_isolated konigsberg ∧
  (is_eulerian konigsberg = Returns true ↔ has_eulerian_circuit konigsberg) ∧
  (is_directed konigsberg = false →
   (has_eulerian_path konigsberg = Returns true ↔
    has_eulerian_walk konigsberg)).
Proof.
  assert (Hwf : wf konigsberg) by compute_done.
  assert (Hiso : no_isolated konigsberg).
  { change konigsberg
      with (graph_of (add_edges_from MultiGraph_new konigsberg_bridges)).
    apply add_edges_from_inv, MultiGraph_new_inv. }
  exact (conj Hwf (conj Hiso
    (X9_exact_without_isolated_vertices konigsberg Hwf Hiso))).
Defined.

(** X10: on a graph with at least one vertex the connectivity predicates
    return, and return [True] exactly when every vertex is reachable from
    every other: along edges in either direction for [nx.is_connected]
    and [nx.is_weakly_connected], along their direction for
    [nx.is_strongly_connected]. *)
Theorem X10_connectivity_predicates {V : Type} `{EqDecision V}
    (G : Graph V) :
  wf G → nodes G ≠ [] →
  if is_directed G then
    (∃ b, is_weakly_connected G = Returns b ∧ (b = true ↔ connected G)) ∧
    (∃ b, is_strongly_connected G = Returns b ∧
          (b = true ↔ strongly_connected G))
  else
    ∃ b, is_connected G = Returns b ∧ (b = true ↔ connected G).
Proof.
  intros Hwf Hne. destruct (is_directed G) eqn:Hdir.
  - split; [by apply is_weakly_connected_spec|].
    by apply is_strongly_connected_spec.
  - by apply is_connected_spec.
Qed.

Lemma X10_witness :
  wf directed_cycle ∧ nodes directed_cycle ≠ [] ∧
  (∃ b, is_weakly_connected directed_cycle = Returns b ∧
        (b = true ↔ connected directed_cycle)) ∧
  (∃ b, is_strongly_connected directed_cycle = Returns b ∧
        (b = true ↔ strongly_connected directed_cycle)).
Proof.
  assert (Hwf : wf directed_cycle) by compute_done.
  assert (Hne : nodes directed_cycle ≠ []) by (simpl; discriminate).
  exact (conj Hwf (conj Hne
    (X10_connectivity_predicates directed_cycle Hwf Hne))).
Defined.

(** ** The graphs of the tests, as built *)

Example konigsberg_as_built :
  graph_of (add_edges_from MultiGraph_new konigsberg_bridges) = konigsberg.
Proof. vm_compute. reflexivity. Qed.

Example kaliningrad_as_built :
  graph_of (add_edges_from MultiGraph_new kaliningrad_bridges) = kaliningrad.
Proof. vm_compute. reflexivity. Qed.




